(** * Pivoted Cholesky and Woodbury solves of gpytorch/utils/pivoted_cholesky.py

    Shallow embedding over the real numbers of the Standard Library: the
    arithmetic of the source is modelled exactly (no rounding).  A tensor of
    shape [(r, c)] is a function [nat -> nat -> R] read at indices below
    [(r, c)]; a 1-D tensor is a function [nat -> R].  Batched tensors are
    lists of per-element tensors. *)

From Stdlib Require Import Reals Lra Lia Psatz List Permutation Arith ZArith.
From Stdlib Require Import FunctionalExtensionality.
Import ListNotations.

Open Scope R_scope.

(* ------------------------------------------------------------------ *)
(** ** Tensors *)

Definition vec := nat -> R.
Definition mat := nat -> nat -> R.

(** [rsum n f] is the sum [f 0 + ... + f (n-1)] (a [torch.sum] over a
    dimension of size [n]). *)
Fixpoint rsum (n : nat) (f : nat -> R) : R :=
  match n with
  | O => 0
  | S n' => rsum n' f + f n'
  end.

(** Sum of [f] over a list of indices. *)
Fixpoint lsum (l : list nat) (f : nat -> R) : R :=
  match l with
  | [] => 0
  | i :: l' => f i + lsum l' f
  end.

(** [torch.norm(v, 1)] of a 1-D tensor given as a list. *)
Definition norm1 (l : list R) : R := fold_right (fun x acc => Rabs x + acc) 0 l.

(** [torch.gather(f, -1, idx)] for a 1-D tensor [f]. *)
Definition gather (f : vec) (idx : list nat) : list R := map f idx.

(** [f.scatter_(-1, idx, vals)] for a 1-D tensor [f]: [f[idx[t]] = vals[t]]. *)
Fixpoint scatter (f : vec) (idx : list nat) (vals : list R) : vec :=
  match idx, vals with
  | i :: idx', v :: vals' =>
      scatter (fun j => if Nat.eqb j i then v else f j) idx' vals'
  | _, _ => f
  end.

(** Elementwise binary operation on two 1-D tensors of the same length. *)
Fixpoint zip_with (g : R -> R -> R) (xs ys : list R) : list R :=
  match xs, ys with
  | x :: xs', y :: ys' => g x y :: zip_with g xs' ys'
  | _, _ => []
  end.

(** In-place write of one entry of the (integer) permutation tensor. *)
Fixpoint set_nth (l : list nat) (i : nat) (v : nat) : list nat :=
  match l, i with
  | [], _ => []
  | _ :: l', O => v :: l'
  | x :: l', S i' => x :: set_nth l' i' v
  end.

(** Assignment of row [m] of a matrix ([L[..., m, :] = row]). *)
Definition set_row (L : mat) (m : nat) (row : vec) : mat :=
  fun j i => if Nat.eqb j m then row i else L j i.

(** [torch.max(t, -1)] on a non-empty 1-D tensor: the maximal value and its
    position.  On ties torch does not document which position it returns;
    the model takes the first one (no result below depends on the choice). *)
Fixpoint argmax_from (l : list R) (k : nat) (bv : R) (bi : nat) : R * nat :=
  match l with
  | [] => (bv, bi)
  | x :: l' =>
      if Rlt_dec bv x then argmax_from l' (S k) x k
      else argmax_from l' (S k) bv bi
  end.

Definition torch_max (l : list R) : R * nat :=
  match l with
  | [] => (0, O)
  | x :: l' => argmax_from l' 1 x O
  end.

(** [torch.max(errors)] over the (flattened) batch; it raises on an empty
    tensor. *)
Definition batch_max (l : list R) : option R :=
  match l with
  | [] => None
  | x :: l' => Some (fold_right Rmax x l')
  end.

(** Errors raised by torch in the code paths below. *)
Inductive torch_error :=
| NegativeDimension   (* torch.zeros with a negative size *)
| EmptyReduction.     (* torch.max of an empty tensor *)

Inductive result (A : Type) :=
| Ok (a : A)
| Err (e : torch_error).
Arguments Ok {A} a.
Arguments Err {A} e.

(* ------------------------------------------------------------------ *)
(** ** [pivoted_cholesky] *)

(** The per-batch-element buffers of the loop: [matrix_diag], the row of
    [permutation], the slice of [L] and the entry of [errors]. *)
Record pc_state := {
  pc_diag : vec;
  pc_perm : list nat;
  pc_L : mat;
  pc_err : R
}.

(** The state before the loop, for a dense matrix [A] of size [n]:
    [matrix_diag = NonLazyTensor(matrix).diag()] (a copy of the diagonal),
    [L = torch.zeros(max_iter, n)], [errors = torch.norm(matrix_diag, 1)],
    [permutation = torch.arange(0, n)]. *)
Definition pc_init (A : mat) (n : nat) : pc_state :=
  {| pc_diag := fun i => A i i;
     pc_perm := seq 0 n;
     pc_L := fun _ _ => 0;
     pc_err := norm1 (gather (fun i => A i i) (seq 0 n)) |}.

(** One iteration [m] of the [while] loop for one batch element with matrix
    [A] (the row fetch [matrix[pi_m]] reads the original matrix). The
    arithmetic is exact; Rocq's [sqrt] and [/] are total, giving [0] for the
    square root of a negative value and for a division by [0], where torch
    gives NaN or inf. The results below on PSD inputs are stated where the
    selected pivot value is positive, so neither case occurs there
    ([pc_pivot_pos]). *)
Definition pc_step (A : mat) (n m : nat) (st : pc_state) : pc_state :=
  let permutation := pc_perm st in
  let matrix_diag := pc_diag st in
  let L := pc_L st in
  let permuted_diags := gather matrix_diag (skipn m permutation) in
  let '(max_diag_value, k) := torch_max permuted_diags in
  let max_diag_index := (k + m)%nat in
  let old_pi_m := nth m permutation O in
  let perm1 := set_nth permutation m (nth max_diag_index permutation O) in
  let perm2 := set_nth perm1 max_diag_index old_pi_m in
  let pi_m := nth m perm2 O in
  let L_m := scatter (L m) [pi_m] [sqrt max_diag_value] in
  let row := A pi_m in
  if Nat.ltb (m + 1) n then
    let pi_i := skipn (m + 1) perm2 in
    let L_m_new0 := gather row pi_i in
    let L_m_new1 :=
      if Nat.ltb 0 m then
        zip_with Rminus L_m_new0
          (map (fun i => rsum m (fun j => L j pi_m * L j i)) pi_i)
      else L_m_new0 in
    let L_m_new := map (fun v => v / L_m pi_m) L_m_new1 in
    let L_m' := scatter L_m pi_i L_m_new in
    let matrix_diag_current := gather matrix_diag pi_i in
    let matrix_diag' :=
      scatter matrix_diag pi_i
        (zip_with (fun d l => d - l ^ 2) matrix_diag_current L_m_new) in
    {| pc_diag := matrix_diag';
       pc_perm := perm2;
       pc_L := set_row L m L_m';
       pc_err := norm1 (gather matrix_diag' pi_i) |}
  else
    {| pc_diag := matrix_diag;
       pc_perm := perm2;
       pc_L := set_row L m L_m;
       pc_err := pc_err st |}.

(** [while m < max_iter and torch.max(errors) > error_tol], run on the whole
    batch at once; [fuel] is [max_iter - m]. *)
Fixpoint pc_loop (As : list mat) (n : nat) (tol : R) (fuel m : nat)
    (sts : list pc_state) : result (nat * list pc_state) :=
  match fuel with
  | O => Ok (m, sts)
  | S fuel' =>
      match batch_max (map pc_err sts) with
      | None => Err EmptyReduction
      | Some e =>
          if Rlt_dec tol e then
            pc_loop As n tol fuel' (S m)
              (map (fun '(A, st) => pc_step A n m st) (combine As sts))
          else Ok (m, sts)
      end
  end.

(** [L[..., :m, :]]. *)
Definition truncate (m : nat) (L : mat) : mat :=
  fun j i => if Nat.ltb j m then L j i else 0.

(** The loop of [pivoted_cholesky(matrix, max_iter, error_tol)] on a batch
    [As] of dense [n x n] matrices (a single matrix is a batch of one):
    the number [m] of iterations run and the final per-element states.
    [max_iter] is a Python int; [L = torch.zeros(..., max_iter, n)] raises
    on a negative size. *)
Definition pivoted_cholesky_states (As : list mat) (n : nat) (max_iter : Z)
    (error_tol : R) : result (nat * list pc_state) :=
  let mi := Z.min max_iter (Z.of_nat n) in
  if (mi <? 0)%Z then Err NegativeDimension
  else pc_loop As n error_tol (Z.to_nat mi) O (map (fun A => pc_init A n) As).

(** [pivoted_cholesky(matrix, max_iter, error_tol)]: the number of rows [m]
    of the returned factor and, per batch element, the [m x n] factor. *)
Definition pivoted_cholesky (As : list mat) (n : nat) (max_iter : Z)
    (error_tol : R) : result (nat * list mat) :=
  match pivoted_cholesky_states As n max_iter error_tol with
  | Err e => Err e
  | Ok (m, sts) => Ok (m, map (fun st => truncate m (pc_L st)) sts)
  end.

(* ------------------------------------------------------------------ *)
(** ** The torch routines called by [woodbury_factor] *)

Definition matmul (p : nat) (X Y : mat) : mat :=
  fun i j => rsum p (fun c => X i c * Y c j).

Definition transpose (X : mat) : mat := fun i j => X j i.

(** [torch.eye(k)]. *)
Definition eye : mat := fun i j => if Nat.eqb i j then 1 else 0.

(** [torch.cholesky(M)] (lower factor, [M = L L^t]) of a [k x k] matrix, in
    exact arithmetic, computed column by column by the outer-product
    (right-looking) scheme; like LAPACK's [potrf] with [uplo = 'L'] it reads
    only entries [M i j] with [i >= j].  [S] is the trailing residual. *)
Fixpoint chol_steps (k fuel j : nat) (S : mat) (L : mat) : mat :=
  match fuel with
  | O => L
  | Datatypes.S fuel' =>
      let d := sqrt (S j j) in
      let col := fun i => if (Nat.leb j i && Nat.ltb i k)%bool then S i j / d else 0 in
      let L' := fun i c => if Nat.eqb c j then col i else L i c in
      let S' := fun a b => S a b - col a * col b in
      chol_steps k fuel' (Datatypes.S j) S' L'
  end.

Definition torch_cholesky (k : nat) (M : mat) : mat :=
  chol_steps k k O M (fun _ _ => 0).

(** Forward substitution [L y = b] with a lower-triangular [L]: entries below
    [i] of [y]. *)
Fixpoint fwd_sub (L : mat) (b : vec) (i : nat) : vec :=
  match i with
  | O => fun _ => 0
  | S i' =>
      let y := fwd_sub L b i' in
      fun t => if Nat.eqb t i'
               then (b i' - rsum i' (fun j => L i' j * y j)) / L i' i'
               else y t
  end.

(** Back substitution [L^t x = y] of size [k]: entries [k - t .. k - 1] of
    [x]. *)
Fixpoint bwd_sub (k : nat) (L : mat) (y : vec) (t : nat) : vec :=
  match t with
  | O => fun _ => 0
  | S t' =>
      let x := bwd_sub k L y t' in
      let i := (k - S t')%nat in
      fun s => if Nat.eqb s i
               then (y i - rsum k (fun j => if Nat.ltb i j then L j i * x j else 0))
                    / L i i
               else x s
  end.

(** [torch.potrs(B, chol, upper=False)]: solves [(chol chol^t) X = B] for a
    [k x n] right-hand side [B], column by column. *)
Definition torch_potrs (k : nat) (B : mat) (chol : mat) : mat :=
  fun i c => bwd_sub k chol (fwd_sub chol (fun r => B r c) k) k i.

(* ------------------------------------------------------------------ *)
(** ** [woodbury_factor] and [woodbury_solve] *)

(** [shift.reciprocal()]. *)
Definition reciprocal (v : vec) : vec := fun i => / v i.

(** [v.abs().max()] of a 1-D tensor of length [n]; torch raises for
    [n = 0], for [n >= 1] this is the maximum, the entries being
    non-negative. *)
Definition abs_max (n : nat) (v : vec) : R :=
  fold_right Rmax 0 (map (fun i => Rabs (v i)) (seq 0 n)).

(** [woodbury_factor(low_rank_mat, shift)] for a [k x n] matrix [V] (the
    work-precision branch; the half-precision branch casts and computes the
    same value, and the diagnostic [print] has no effect on the result). *)
Definition woodbury_factor (k n : nat) (low_rank_mat : mat) (shift : vec) : mat :=
  let inv_shift0 := reciprocal shift in
  let scale := abs_max n inv_shift0 in
  let inv_shift := fun i => inv_shift0 i / scale in
  (* inv_shift.unsqueeze(-1) * low_rank_mat.transpose(-1, -2) *)
  let scaled_t := fun j a => inv_shift j * transpose low_rank_mat j a in
  let shifted_mat0 := matmul n low_rank_mat scaled_t in
  let shifted_mat := fun a c => shifted_mat0 a c + eye a c / scale in
  let chol := torch_cholesky k shifted_mat in
  torch_potrs k low_rank_mat chol.

(** [woodbury_solve(vector, low_rank_mat, woodbury_factor, shift)] for an
    [n x p] right-hand side (a 1-D [vector] is the case [p = 1], column 0):
    [(inv_shift * vector - inv_shift * (V^t @ R @ shifted_vector)) * scale]. *)
Definition woodbury_solve (k n : nat) (vector low_rank_mat wf : mat)
    (shift : vec) : mat :=
  let inv_shift0 := reciprocal shift in
  let scale := abs_max n inv_shift0 in
  let inv_shift := fun i => inv_shift0 i / scale in
  let shifted_vector := fun i q => inv_shift i * vector i q in
  let prod := matmul n (matmul k (transpose low_rank_mat) wf) shifted_vector in
  let diff := fun i q => inv_shift i * prod i q in
  let res := fun i q => shifted_vector i q - diff i q in
  fun i q => res i q * scale.

(* ------------------------------------------------------------------ *)
(** ** Notions used by the specification *)

(** The quadratic form [x^t S x] of an [n x n] matrix. *)
Definition quad (n : nat) (S : mat) (x : vec) : R :=
  rsum n (fun a => x a * rsum n (fun b => S a b * x b)).

Definition symmetric (n : nat) (S : mat) : Prop :=
  forall a b, (a < n)%nat -> (b < n)%nat -> S a b = S b a.

Definition psd (n : nat) (S : mat) : Prop := forall x, 0 <= quad n S x.

Definition nonzero_vec (n : nat) (x : vec) : Prop :=
  exists a, (a < n)%nat /\ x a <> 0.

Definition posdef (n : nat) (S : mat) : Prop :=
  forall x, nonzero_vec n x -> 0 < quad n S x.

(** The [k x k] matrix of the specification,
    [M = V diag(inv_shift) V^t + I_k / scale], with [scale = max |1/shift|]
    and [inv_shift = (1/shift) / scale]. *)
Definition spec_scale (n : nat) (shift : vec) : R :=
  fold_right Rmax 0 (map (fun i => Rabs (1 / shift i)) (seq 0 n)).

Definition spec_M (k n : nat) (V : mat) (shift : vec) : mat :=
  let s := spec_scale n shift in
  let D := fun i j => if Nat.eqb i j then (1 / shift i) / s else 0 in
  fun a c => matmul n (matmul n V D) (transpose V) a c + eye a c / s.

(** The dense system [(diag(shift) + V^t V) x] of the specification. *)
Definition dense_apply (k n : nat) (V : mat) (shift : vec) (x : mat) : mat :=
  let D := fun i j => if Nat.eqb i j then shift i else 0 in
  matmul n (fun i j => D i j + matmul k (transpose V) V i j) x.

(** The per-element state after [j] iterations of the loop body. *)
Fixpoint pc_iter (A : mat) (n j : nat) : pc_state :=
  match j with
  | O => pc_init A n
  | S j' => pc_step A n j' (pc_iter A n j')
  end.

(** The residual [A - sum_{r<j} L[r]^t L[r]] after [j] rows of [L]. *)
Definition resid (A : mat) (L : mat) (j : nat) : mat :=
  fun a b => A a b - rsum j (fun r => L r a * L r b).

(** The new row of [L] at the unpivoted indices. *)
Definition pc_lnew (A : mat) (m : nat) (st : pc_state) (p : nat) : vec :=
  fun i => (A p i - rsum m (fun j => pc_L st j p * pc_L st j i)) / sqrt (pc_diag st p).

(** The invariant of the loop after [j] iterations on a symmetric PSD
    input: the residual [resid A L j] is PSD and vanishes on the rows of the
    pivots, the working diagonal is its diagonal on the unpivoted indices,
    the rows [>= j] of [L] are still zero, and [errors] is the L1 norm of the
    unpivoted diagonal. *)
Definition pc_inv (A : mat) (n j : nat) (st : pc_state) : Prop :=
  Permutation (seq 0 n) (pc_perm st) /\
  (forall r i, (j <= r)%nat -> pc_L st r i = 0) /\
  (forall i, In i (skipn j (pc_perm st)) -> pc_diag st i = resid A (pc_L st) j i i) /\
  (forall a b, In a (firstn j (pc_perm st)) -> (b < n)%nat -> resid A (pc_L st) j a b = 0) /\
  psd n (resid A (pc_L st) j) /\
  ((j < n)%nat -> pc_err st = lsum (skipn j (pc_perm st)) (fun i => Rabs (pc_diag st i))).

(** The unit vector [e_p]. *)
Definition basis (p : nat) : vec := fun i => if Nat.eqb i p then 1 else 0.

(** Positive definiteness on the vectors that vanish below [j]. *)
Definition pd_from (j n : nat) (S : mat) : Prop :=
  forall x, (forall a, (a < j)%nat -> x a = 0) -> nonzero_vec n x -> 0 < quad n S x.

(** The invariant of [chol_steps] after column [j] on a symmetric positive
    definite [k x k] matrix [M]: [S = M - L L^t], [S] is symmetric, positive
    definite on the trailing block and zero on the rows [< j], and [L] is
    lower triangular with a positive diagonal on its columns [< j]. *)
Definition chol_inv (k : nat) (M : mat) (j : nat) (S L : mat) : Prop :=
  (forall a b, (a < k)%nat -> (b < k)%nat -> S a b = M a b - rsum j (fun c => L a c * L b c)) /\
  symmetric k S /\
  pd_from j k S /\
  (forall a b, (a < j)%nat -> (b < k)%nat -> S a b = 0) /\
  (forall i c, (j <= c)%nat -> L i c = 0) /\
  (forall i c, (i < c)%nat -> L i c = 0) /\
  (forall c, (c < j)%nat -> 0 < L c c).

(** ** The tensors of [woodbury_factor] and [woodbury_solve] as a store *)

(** Python passes tensors by reference; a call can only change its
    arguments' contents by writing to their storage. The store maps handles
    to tensor contents; each torch operation used by the two functions
    ([reciprocal], [abs], [max], [div], [*], [@], [+], [-], [mul],
    [torch.eye], [torch.cholesky], [torch.potrs]) reads its arguments and
    allocates its result. [unsqueeze] and [transpose] return views sharing
    their base's storage; as no operation of the two functions writes to any
    tensor, a view is modelled by a fresh cell holding the reshaped contents. *)
Module TensorStore.

Inductive tensor :=
| TScalar (r : R)
| TVec (v : vec)
| TMat (m : mat).

Record store := mkStore { next : nat; cells : nat -> option tensor }.

(** Computations on the store; [None] is a type error on a handle. *)
Definition ST (A : Type) : Type := store -> option (A * store).

Definition ret {A : Type} (a : A) : ST A := fun s => Some (a, s).

Definition bind {A B : Type} (m : ST A) (k : A -> ST B) : ST B :=
  fun s => match m s with
           | Some (a, s') => k a s'
           | None => None
           end.

Notation "x <- m ;; k" := (bind m (fun x => k)) (at level 61, m at next level, right associativity).

Definition alloc_st (s : store) (t : tensor) : store :=
  mkStore (S (next s)) (fun q => if Nat.eqb q (next s) then Some t else cells s q).

(** A new tensor. *)
Definition alloc (t : tensor) : ST nat := fun s => Some (next s, alloc_st s t).

Definition get_scalar (p : nat) : ST R := fun s =>
  match cells s p with Some (TScalar r) => Some (r, s) | _ => None end.

Definition get_vec (p : nat) : ST vec := fun s =>
  match cells s p with Some (TVec v) => Some (v, s) | _ => None end.

Definition get_mat (p : nat) : ST mat := fun s =>
  match cells s p with Some (TMat m) => Some (m, s) | _ => None end.

(** [woodbury_factor(low_rank_mat, shift)] on the handles [pV] and [pS]; it
    returns the handle of [R]. *)
Definition woodbury_factor_prog (k n : nat) (pV pS : nat) : ST nat :=
  shift <- get_vec pS ;;
  p_inv0 <- alloc (TVec (reciprocal shift)) ;;               (* shift.reciprocal() *)
  inv0 <- get_vec p_inv0 ;;
  p_abs <- alloc (TVec (fun i => Rabs (inv0 i))) ;;          (* .abs() *)
  ab <- get_vec p_abs ;;
  p_scale <- alloc (TScalar (fold_right Rmax 0 (map ab (seq 0 n)))) ;;  (* .max() *)
  scale <- get_scalar p_scale ;;
  p_inv <- alloc (TVec (fun i => inv0 i / scale)) ;;         (* inv_shift.div(scale) *)
  inv <- get_vec p_inv ;;
  p_invu <- alloc (TMat (fun j _ => inv j)) ;;               (* inv_shift.unsqueeze(-1) *)
  invu <- get_mat p_invu ;;
  V <- get_mat pV ;;
  p_Vt <- alloc (TMat (transpose V)) ;;                      (* low_rank_mat.transpose(-1, -2) *)
  Vt <- get_mat p_Vt ;;
  p_sc <- alloc (TMat (fun j a => invu j O * Vt j a)) ;;     (* inv_shift * ... *)
  sc <- get_mat p_sc ;;
  p_sm0 <- alloc (TMat (matmul n V sc)) ;;                   (* low_rank_mat @ ... *)
  sm0 <- get_mat p_sm0 ;;
  p_eye <- alloc (TMat eye) ;;                               (* torch.eye(k) *)
  e <- get_mat p_eye ;;
  p_eyed <- alloc (TMat (fun a c => e a c / scale)) ;;       (* .div(scale) *)
  eyed <- get_mat p_eyed ;;
  p_sm <- alloc (TMat (fun a c => sm0 a c + eyed a c)) ;;    (* shifted_mat + ... *)
  sm <- get_mat p_sm ;;
  p_chol <- alloc (TMat (torch_cholesky k sm)) ;;            (* torch.cholesky *)
  chol <- get_mat p_chol ;;
  p_R <- alloc (TMat (torch_potrs k V chol)) ;;              (* torch.potrs *)
  ret p_R.

(** [woodbury_solve(vector, low_rank_mat, woodbury_factor, shift)] on the
    handles [pb], [pV], [pR] and [pS] ([vector] 2-D); it returns the handle
    of the result. *)
Definition woodbury_solve_prog (k n : nat) (pb pV pR pS : nat) : ST nat :=
  shift <- get_vec pS ;;
  p_inv0 <- alloc (TVec (reciprocal shift)) ;;               (* shift.reciprocal() *)
  inv0 <- get_vec p_inv0 ;;
  p_abs <- alloc (TVec (fun i => Rabs (inv0 i))) ;;          (* .abs() *)
  ab <- get_vec p_abs ;;
  p_scale <- alloc (TScalar (fold_right Rmax 0 (map ab (seq 0 n)))) ;;  (* .max() *)
  scale <- get_scalar p_scale ;;
  p_inv <- alloc (TVec (fun i => inv0 i / scale)) ;;         (* inv_shift.div(scale) *)
  inv <- get_vec p_inv ;;
  p_invu <- alloc (TMat (fun i _ => inv i)) ;;               (* inv_shift.unsqueeze(-1) *)
  invu <- get_mat p_invu ;;
  b <- get_mat pb ;;
  p_sv <- alloc (TMat (fun i q => invu i O * b i q)) ;;      (* inv_shift * vector *)
  sv <- get_mat p_sv ;;
  V <- get_mat pV ;;
  p_Vt <- alloc (TMat (transpose V)) ;;                      (* low_rank_mat.transpose(-1, -2) *)
  Vt <- get_mat p_Vt ;;
  R <- get_mat pR ;;
  p_VtR <- alloc (TMat (matmul k Vt R)) ;;                   (* ... @ woodbury_factor *)
  VtR <- get_mat p_VtR ;;
  p_prod <- alloc (TMat (matmul n VtR sv)) ;;               (* ... @ shifted_vector *)
  prod <- get_mat p_prod ;;
  p_diff <- alloc (TMat (fun i q => invu i O * prod i q)) ;; (* inv_shift * ... *)
  diff <- get_mat p_diff ;;
  p_res <- alloc (TMat (fun i q => sv i q - diff i q)) ;;    (* shifted_vector - diff *)
  res <- get_mat p_res ;;
  p_out <- alloc (TMat (fun i q => res i q * scale)) ;;      (* res.mul(scale) *)
  ret p_out.

(** [m] only allocates: the cells below [next] are left as they are. *)
Definition frame {A : Type} (m : ST A) : Prop :=
  forall s a s', m s = Some (a, s') ->
    (next s <= next s')%nat /\ forall q, (q < next s)%nat -> cells s' q = cells s q.

End TensorStore.

(** Small concrete inputs. *)
Definition ones : mat := fun _ _ => 1.

Definition neg_ones : mat := fun _ _ => -1.

(** The symmetric positive definite matrix [[2, 2], [2, 4]]: its first
    pivot is index 1, so the first iteration swaps, updates and deflates. *)
Definition A2 : mat := fun a b =>
  match a, b with
  | O, O => 2
  | S O, S O => 4
  | _, _ => 2
  end.

(** The symmetric indefinite matrix [[1, 2], [2, -1]]. *)
Definition indef2 : mat := fun a b =>
  match a, b with
  | O, O => 1
  | S O, S O => -1
  | _, _ => 2
  end.

(** [V = [[1, 0, 0], [0, 1, 0]]], [shift = [1, 1, 1]], [b = [2, 2, 1]]. *)
Definition V3 : mat := fun a b =>
  match a, b with
  | O, O => 1
  | S O, S O => 1
  | _, _ => 0
  end.

Definition shift3 : vec := fun _ => 1.

Definition b3 : mat := fun i _ =>
  match i with
  | O => 2
  | S O => 2
  | _ => 1
  end.

(** A store holding [V], [shift], [b] and the factor [R] of the C3 example
    at handles [0 .. 3]. *)
Definition store3 : TensorStore.store :=
  TensorStore.mkStore 4 (fun q =>
    match q with
    | O => Some (TensorStore.TMat V3)
    | S O => Some (TensorStore.TVec shift3)
    | S (S O) => Some (TensorStore.TMat b3)
    | S (S (S O)) => Some (TensorStore.TMat (woodbury_factor 2 3 V3 shift3))
    | _ => None
    end).

(** The tensor [errors] of the batch (one entry per element) after [j]
    iterations of the loop. *)
Definition pc_errors (As : list mat) (n j : nat) : list R :=
  map pc_err (map (fun A => pc_iter A n j) As).

(** [shifted_mat] of [woodbury_factor], the matrix handed to
    [torch.cholesky]:
    [low_rank_mat @ (inv_shift * low_rank_mat^t) + eye(k) / scale]. *)
Definition shifted_mat (n : nat) (low_rank_mat : mat) (shift : vec) : mat :=
  let inv_shift0 := reciprocal shift in
  let scale := abs_max n inv_shift0 in
  let inv_shift := fun i => inv_shift0 i / scale in
  let scaled_t := fun j a => inv_shift j * transpose low_rank_mat j a in
  fun a c => matmul n low_rank_mat scaled_t a c + eye a c / scale.

(* ================================================================== *)
(** * Proofs *)

(* ------------------------------------------------------------------ *)
(** ** Finite sums *)

Lemma rsum_ext n f g :
  (forall i, (i < n)%nat -> f i = g i) -> rsum n f = rsum n g.
Proof.
  induction n as [|n IH]; intros H; simpl; [reflexivity|].
  rewrite IH by (intros; apply H; lia). rewrite H by lia. reflexivity.
Qed.

Lemma rsum_plus n f g : rsum n (fun i => f i + g i) = rsum n f + rsum n g.
Proof. induction n; simpl; [lra|rewrite IHn; lra]. Qed.

Lemma rsum_minus n f g : rsum n (fun i => f i - g i) = rsum n f - rsum n g.
Proof. induction n; simpl; [lra|rewrite IHn; lra]. Qed.

Lemma rsum_scal_l n c f : rsum n (fun i => c * f i) = c * rsum n f.
Proof. induction n; simpl; [lra|rewrite IHn; lra]. Qed.

Lemma rsum_scal_r n c f : rsum n (fun i => f i * c) = rsum n f * c.
Proof. induction n; simpl; [lra|rewrite IHn; lra]. Qed.

Lemma rsum_zero n f : (forall i, (i < n)%nat -> f i = 0) -> rsum n f = 0.
Proof.
  intros H. rewrite (rsum_ext n f (fun _ => 0)) by exact H. clear H.
  induction n; simpl; [lra|rewrite IHn; lra].
Qed.

Lemma rsum_swap n m (f : nat -> nat -> R) :
  rsum n (fun i => rsum m (fun j => f i j)) = rsum m (fun j => rsum n (fun i => f i j)).
Proof.
  induction n as [|n IH]; simpl.
  - symmetry. apply rsum_zero. reflexivity.
  - rewrite IH, <- rsum_plus. reflexivity.
Qed.

(** A sum with a single non-zero term. *)
Lemma rsum_single n p f :
  (p < n)%nat -> (forall i, (i < n)%nat -> i <> p -> f i = 0) -> rsum n f = f p.
Proof.
  induction n as [|n IH]; intros Hp H; [lia|simpl].
  destruct (Nat.eq_dec p n) as [->|Hne].
  - rewrite rsum_zero; [lra|]. intros i Hi. apply H; lia.
  - rewrite IH by (try lia; intros; apply H; lia). rewrite (H n) by lia. lra.
Qed.

Lemma rsum_eqb n p (g : nat -> R) :
  (p < n)%nat -> rsum n (fun i => if Nat.eqb i p then g i else 0) = g p.
Proof.
  intros Hp. rewrite (rsum_single n p); [now rewrite Nat.eqb_refl|exact Hp|].
  intros i _ Hi. apply Nat.eqb_neq in Hi. now rewrite Hi.
Qed.

Lemma rsum_nonneg n f : (forall i, (i < n)%nat -> 0 <= f i) -> 0 <= rsum n f.
Proof.
  induction n; intros H; simpl; [lra|].
  assert (0 <= rsum n f) by (apply IHn; intros; apply H; lia).
  assert (0 <= f n) by (apply H; lia). lra.
Qed.

(** Splitting off the last index below [S n]. *)
Lemma rsum_S n f : rsum (S n) f = rsum n f + f n.
Proof. reflexivity. Qed.

(** Sums over lists of indices. *)
Lemma lsum_app l1 l2 f : lsum (l1 ++ l2) f = lsum l1 f + lsum l2 f.
Proof. induction l1; simpl; [lra|rewrite IHl1; lra]. Qed.

Lemma lsum_cons x l f : lsum (x :: l) f = f x + lsum l f.
Proof. reflexivity. Qed.

Lemma lsum_perm l1 l2 f : Permutation l1 l2 -> lsum l1 f = lsum l2 f.
Proof. induction 1; simpl; lra. Qed.

Lemma lsum_ext l f g : (forall i, In i l -> f i = g i) -> lsum l f = lsum l g.
Proof.
  induction l as [|i l IH]; intros H; simpl; [reflexivity|].
  rewrite H by (left; reflexivity). rewrite IH by (intros; apply H; right; assumption).
  reflexivity.
Qed.

Lemma lsum_le l f g : (forall i, In i l -> f i <= g i) -> lsum l f <= lsum l g.
Proof.
  induction l as [|i l IH]; intros H; simpl; [lra|].
  assert (f i <= g i) by (apply H; left; reflexivity).
  assert (lsum l f <= lsum l g) by (apply IH; intros; apply H; right; assumption).
  lra.
Qed.

Lemma lsum_nonneg l f : (forall i, In i l -> 0 <= f i) -> 0 <= lsum l f.
Proof.
  intros H. replace 0 with (lsum l (fun _ => 0)).
  - apply lsum_le. exact H.
  - clear H. induction l; simpl; lra.
Qed.

Lemma lsum_zero_each l f :
  (forall i, In i l -> 0 <= f i) -> lsum l f <= 0 -> forall i, In i l -> f i = 0.
Proof.
  induction l as [|j l IH]; intros Hnn Hle i Hi; [destruct Hi|]. simpl in Hle.
  assert (0 <= f j) by (apply Hnn; left; reflexivity).
  assert (0 <= lsum l f) by (apply lsum_nonneg; intros; apply Hnn; right; assumption).
  destruct Hi as [<-|Hi]; [lra|].
  apply IH; [intros; apply Hnn; right; assumption|lra|exact Hi].
Qed.

Lemma lsum_seq_rsum n f : lsum (seq 0 n) f = rsum n f.
Proof.
  induction n as [|n IH]; [reflexivity|].
  rewrite seq_S, lsum_app, IH. simpl. lra.
Qed.

Lemma norm1_gather f l : norm1 (gather f l) = lsum l (fun i => Rabs (f i)).
Proof.
  induction l as [|i l IH]; [reflexivity|].
  unfold norm1, gather in *. simpl. rewrite IH. reflexivity.
Qed.

(* ------------------------------------------------------------------ *)
(** ** Quadratic forms and one step of symmetric elimination *)

Lemma quad_ext n S S' x x' :
  (forall a b, (a < n)%nat -> (b < n)%nat -> S a b = S' a b) ->
  (forall a, (a < n)%nat -> x a = x' a) -> quad n S x = quad n S' x'.
Proof.
  intros HS Hx. unfold quad. apply rsum_ext. intros a Ha. rewrite Hx by exact Ha.
  f_equal. apply rsum_ext. intros b Hb. rewrite HS, Hx by assumption. reflexivity.
Qed.

Lemma rsum_basis n p (g : nat -> R) :
  (p < n)%nat -> rsum n (fun b => g b * basis p b) = g p.
Proof.
  intros Hp. rewrite <- (rsum_eqb n p g Hp). apply rsum_ext. intros b _.
  unfold basis. destruct (Nat.eqb b p); lra.
Qed.

Lemma rsum_basis_l n p (g : nat -> R) :
  (p < n)%nat -> rsum n (fun b => basis p b * g b) = g p.
Proof.
  intros Hp. rewrite <- (rsum_basis n p g Hp). apply rsum_ext. intros; lra.
Qed.

Lemma quad_shift n S x p t :
  (p < n)%nat -> symmetric n S ->
  quad n S (fun b => x b + t * basis p b)
  = quad n S x + 2 * t * rsum n (fun b => S p b * x b) + t * t * S p p.
Proof.
  intros Hp Hs. unfold quad.
  assert (Hin : forall a, (a < n)%nat ->
            rsum n (fun b => S a b * (x b + t * basis p b))
            = rsum n (fun b => S a b * x b) + t * S a p).
  { intros a Ha.
    rewrite (rsum_ext n _ (fun b => S a b * x b + t * (S a b * basis p b)))
      by (intros; ring).
    rewrite rsum_plus, rsum_scal_l, rsum_basis by exact Hp. reflexivity. }
  rewrite (rsum_ext n _ (fun a => x a * rsum n (fun b => S a b * x b)
                                  + t * (x a * S p a)
                                  + t * (basis p a * rsum n (fun b => S a b * x b))
                                  + t * t * (basis p a * S a p))).
  2:{ intros a Ha. rewrite Hin by exact Ha. rewrite (Hs a p) by assumption. ring. }
  rewrite !rsum_plus, !rsum_scal_l.
  rewrite (rsum_basis_l n p (fun a => rsum n (fun b => S a b * x b))) by exact Hp.
  rewrite (rsum_basis_l n p (fun a => S a p)) by exact Hp.
  rewrite (rsum_ext n (fun a => x a * S p a) (fun b => S p b * x b)) by (intros; ring).
  ring.
Qed.

Lemma quad_zero_vec n S : quad n S (fun _ => 0) = 0.
Proof.
  unfold quad. apply rsum_zero. intros; ring.
Qed.

Lemma quad_basis n S p : (p < n)%nat -> symmetric n S -> quad n S (basis p) = S p p.
Proof.
  intros Hp Hs.
  rewrite (quad_ext n S S (basis p) (fun b => 0 + 1 * basis p b)) by (intros; ring || reflexivity).
  rewrite quad_shift by assumption. rewrite quad_zero_vec.
  rewrite (rsum_zero n (fun b => S p b * 0)) by (intros; ring). ring.
Qed.

Lemma psd_diag n S p : symmetric n S -> psd n S -> (p < n)%nat -> 0 <= S p p.
Proof. intros Hs Hpsd Hp. rewrite <- (quad_basis n S p) by assumption. apply Hpsd. Qed.

(** A vanishing diagonal entry of a PSD matrix kills its row. *)
Lemma psd_zero_diag_row n S p :
  symmetric n S -> psd n S -> (p < n)%nat -> S p p = 0 ->
  forall b, (b < n)%nat -> S p b = 0.
Proof.
  intros Hs Hpsd Hp H0 b Hb.
  destruct (Req_dec (S p b) 0) as [|Hne]; [assumption|exfalso].
  pose (t := - (S b b + 1) / (2 * S p b)).
  pose proof (Hpsd (fun i => basis b i + t * basis p i)) as Hq.
  rewrite quad_shift, quad_basis, rsum_basis in Hq by assumption.
  rewrite H0 in Hq.
  assert (2 * t * S p b = - (S b b + 1)) by (unfold t; field; exact Hne).
  lra.
Qed.

Lemma sqrt_div_self a : 0 <= a -> a / sqrt a = sqrt a.
Proof.
  intros Ha. destruct (Req_dec a 0) as [->|Hne].
  - rewrite sqrt_0. unfold Rdiv. rewrite Rinv_0. ring.
  - assert (0 < sqrt a) by (apply sqrt_lt_R0; lra).
    rewrite <- (sqrt_sqrt a) at 1 by exact Ha. field. lra.
Qed.

Section Elimination.
Variables (n p : nat) (S : mat).
Hypothesis Hp : (p < n)%nat.
Hypothesis Hsym : symmetric n S.

(** The scaled pivot column and the Schur complement after pivot [p]. *)
Let l := fun b => S p b / sqrt (S p p).
Let S' := fun a b => S a b - l a * l b.

Lemma schur_quad x :
  0 < S p p ->
  quad n S' x
  = quad n S (fun b => x b + (- (rsum n (fun b => S p b * x b) / S p p)) * basis p b).
Proof.
  intros Hpos. rewrite quad_shift by assumption.
  set (c := rsum n (fun b => S p b * x b)).
  assert (Hsq : sqrt (S p p) * sqrt (S p p) = S p p) by (apply sqrt_sqrt; lra).
  assert (Hsq0 : 0 < sqrt (S p p)) by (apply sqrt_lt_R0; exact Hpos).
  unfold quad, S'.
  rewrite (rsum_ext n _ (fun a => x a * rsum n (fun b => S a b * x b)
                                  - (x a * l a) * rsum n (fun b => l b * x b))).
  2:{ intros a _. rewrite (rsum_ext n _ (fun b => S a b * x b - l a * (l b * x b)))
        by (intros; ring).
      rewrite rsum_minus, rsum_scal_l. ring. }
  rewrite rsum_minus, (rsum_scal_r n (rsum n (fun b => l b * x b)) (fun a => x a * l a)).
  assert (Hl : rsum n (fun b => l b * x b) = c / sqrt (S p p)).
  { unfold l, c, Rdiv. rewrite <- (rsum_scal_r n (/ sqrt (S p p))).
    apply rsum_ext. intros. ring. }
  assert (Hl' : rsum n (fun a => x a * l a) = c / sqrt (S p p)).
  { rewrite <- Hl. apply rsum_ext. intros. ring. }
  rewrite Hl, Hl'. fold (quad n S x).
  assert (Hcc : c / sqrt (S p p) * (c / sqrt (S p p)) = c * c / S p p).
  { rewrite <- Hsq at 3. field. lra. }
  rewrite Hcc. field. lra.
Qed.

Lemma schur_psd : psd n S -> psd n S'.
Proof.
  intros Hpsd x. pose proof (psd_diag n S p Hsym Hpsd Hp) as Hd.
  destruct (Req_dec (S p p) 0) as [H0|Hne].
  - rewrite (quad_ext n S' S x x); [apply Hpsd| |reflexivity].
    intros a b _ _. unfold S', l. rewrite H0, sqrt_0. unfold Rdiv. rewrite Rinv_0. ring.
  - rewrite schur_quad by lra. apply Hpsd.
Qed.

Lemma schur_row : psd n S -> forall b, (b < n)%nat -> S' p b = 0.
Proof.
  intros Hpsd b Hb. unfold S', l. pose proof (psd_diag n S p Hsym Hpsd Hp) as Hd.
  destruct (Req_dec (S p p) 0) as [H0|Hne].
  - rewrite (psd_zero_diag_row n S p Hsym Hpsd Hp H0 b Hb). rewrite H0, sqrt_0.
    unfold Rdiv. rewrite Rinv_0. ring.
  - assert (Hsq : sqrt (S p p) * sqrt (S p p) = S p p) by (apply sqrt_sqrt; lra).
    assert (0 < sqrt (S p p)) by (apply sqrt_lt_R0; lra).
    rewrite (sqrt_div_self (S p p)) by lra. field. lra.
Qed.

Lemma schur_sym : symmetric n S'.
Proof. intros a b Ha Hb. unfold S'. rewrite Hsym by assumption. ring. Qed.

Lemma schur_pd : pd_from p n S -> pd_from (Datatypes.S p) n S'.
Proof.
  intros Hpd x Hlow Hnz.
  assert (Hpos : 0 < S p p).
  { rewrite <- (quad_basis n S p) by assumption. apply Hpd.
    - intros a Ha. unfold basis. destruct (Nat.eqb_spec a p); [lia|reflexivity].
    - exists p. split; [exact Hp|]. unfold basis. rewrite Nat.eqb_refl. lra. }
  rewrite schur_quad by exact Hpos. apply Hpd.
  - intros a Ha. rewrite Hlow by lia. unfold basis.
    destruct (Nat.eqb_spec a p); [lia|ring].
  - destruct Hnz as [a [Ha Hxa]]. exists a. split; [exact Ha|].
    assert (a <> p) by (intros ->; apply Hxa, Hlow; lia).
    unfold basis. destruct (Nat.eqb_spec a p); [contradiction|].
    rewrite Rmult_0_r, Rplus_0_r. exact Hxa.
Qed.
End Elimination.

(* ------------------------------------------------------------------ *)
(** ** Gather, scatter, set_nth and torch.max *)

Lemma scatter_notin f idx vals i : ~ In i idx -> scatter f idx vals i = f i.
Proof.
  revert f vals. induction idx as [|j idx IH]; intros f vals Hi; [reflexivity|].
  destruct vals as [|v vals]; [reflexivity|]. simpl.
  rewrite IH by (intros H; apply Hi; right; exact H).
  destruct (Nat.eqb_spec i j) as [->|]; [exfalso; apply Hi; left; reflexivity|reflexivity].
Qed.

Lemma scatter_map_in f idx g i :
  NoDup idx -> In i idx -> scatter f idx (map g idx) i = g i.
Proof.
  revert f. induction idx as [|j idx IH]; intros f Hnd Hi; [destruct Hi|].
  inversion Hnd as [|? ? Hj Hnd']; subst. simpl.
  destruct (Nat.eq_dec i j) as [->|Hne].
  - rewrite scatter_notin by exact Hj. now rewrite Nat.eqb_refl.
  - destruct Hi as [->|Hi]; [contradiction|]. apply IH; assumption.
Qed.

Lemma zip_with_map (h : R -> R -> R) f g (l : list nat) :
  zip_with h (map f l) (map g l) = map (fun i => h (f i) (g i)) l.
Proof. induction l; simpl; [reflexivity|now rewrite IHl]. Qed.

Lemma length_set_nth l i v : length (set_nth l i v) = length l.
Proof.
  revert i. induction l as [|x l IH]; intros [|i]; simpl; try reflexivity.
  now rewrite IH.
Qed.

Lemma nth_set_nth_eq l i v d : (i < length l)%nat -> nth i (set_nth l i v) d = v.
Proof.
  revert i. induction l as [|x l IH]; intros [|i] Hi; simpl in *; try lia; try reflexivity.
  apply IH. lia.
Qed.

Lemma nth_set_nth_neq l i j v d : i <> j -> nth j (set_nth l i v) d = nth j l d.
Proof.
  revert i j. induction l as [|x l IH]; intros [|i] [|j] Hij; simpl; try reflexivity; try lia.
  apply IH. lia.
Qed.

Lemma firstn_set_nth l i j v : (j <= i)%nat -> firstn j (set_nth l i v) = firstn j l.
Proof.
  revert i j. induction l as [|x l IH]; intros [|i] [|j] Hij; simpl; try reflexivity; try lia.
  f_equal. apply IH. lia.
Qed.

Lemma count_occ_set_nth l i v x d :
  (i < length l)%nat ->
  (count_occ Nat.eq_dec (set_nth l i v) x
   + (if Nat.eq_dec (nth i l d) x then 1 else 0)
   = count_occ Nat.eq_dec l x + (if Nat.eq_dec v x then 1 else 0))%nat.
Proof.
  revert i. induction l as [|y l IH]; intros [|i] Hi; simpl in *; try lia.
  - destruct (Nat.eq_dec v x), (Nat.eq_dec y x); lia.
  - specialize (IH i ltac:(lia)). destruct (Nat.eq_dec y x); lia.
Qed.

(** The swap of [pivoted_cholesky] is a transposition. *)
Lemma swap_perm l i j :
  (i < length l)%nat -> (j < length l)%nat ->
  Permutation l (set_nth (set_nth l i (nth j l O)) j (nth i l O)).
Proof.
  intros Hi Hj. apply (Permutation_count_occ Nat.eq_dec). intros x.
  pose proof (count_occ_set_nth l i (nth j l O) x O Hi) as H1.
  assert (Hj' : (j < length (set_nth l i (nth j l O)))%nat) by (now rewrite length_set_nth).
  pose proof (count_occ_set_nth (set_nth l i (nth j l O)) j (nth i l O) x O Hj') as H2.
  destruct (Nat.eq_dec i j) as [->|Hne].
  - rewrite nth_set_nth_eq in H2 by exact Hi. lia.
  - rewrite nth_set_nth_neq in H2 by exact Hne. lia.
Qed.

Lemma skipn_nth_cons (l : list nat) j d :
  (j < length l)%nat -> skipn j l = nth j l d :: skipn (S j) l.
Proof.
  revert j. induction l as [|x l IH]; intros [|j] Hj; simpl in *; try lia; [reflexivity|].
  apply IH. lia.
Qed.

Lemma NoDup_app_disjoint (l1 l2 : list nat) a :
  NoDup (l1 ++ l2) -> In a l1 -> ~ In a l2.
Proof.
  induction l1 as [|b l1 IH]; intros Hnd Ha; [destruct Ha|].
  inversion Hnd as [|? ? Hb Hnd']; subst.
  destruct Ha as [->|Ha].
  - intros H. apply Hb. apply in_or_app. right. exact H.
  - apply IH; assumption.
Qed.

Lemma argmax_from_spec l k bv bi v r :
  argmax_from l k bv bi = (v, r) ->
  ((v = bv /\ r = bi) \/
   (exists t, (t < length l)%nat /\ r = (k + t)%nat /\ nth t l 0 = v)) /\
  bv <= v /\ (forall x, In x l -> x <= v).
Proof.
  revert k bv bi. induction l as [|x l IH]; intros k bv bi H; simpl in H.
  - inversion H; subst. split; [left; split; reflexivity|]. split; [lra|]. intros x [].
  - destruct (Rlt_dec bv x) as [Hlt|Hge].
    + destruct (IH _ _ _ H) as [[[-> ->]|[t [Ht [-> Hn]]]] [Hb Hall]].
      * split; [right; exists O; simpl; repeat split; lia|].
        split; [lra|]. intros y [<-|Hy]; [lra|]. apply Hall, Hy.
      * split; [right; exists (S t); simpl; repeat split; [lia|lia|exact Hn]|].
        split; [lra|]. intros y [<-|Hy]; [lra|]. apply Hall, Hy.
    + destruct (IH _ _ _ H) as [[[-> ->]|[t [Ht [-> Hn]]]] [Hb Hall]].
      * split; [left; split; reflexivity|]. split; [lra|].
        intros y [<-|Hy]; [lra|]. apply Hall, Hy.
      * split; [right; exists (S t); simpl; repeat split; [lia|lia|exact Hn]|].
        split; [lra|]. intros y [<-|Hy]; [lra|]. apply Hall, Hy.
Qed.

(** [torch.max] returns a position of the tensor holding its maximum. *)
Lemma torch_max_spec l v k :
  l <> [] -> torch_max l = (v, k) ->
  (k < length l)%nat /\ nth k l 0 = v /\ (forall x, In x l -> x <= v).
Proof.
  intros Hne H. destruct l as [|x l]; [contradiction|]. simpl in H.
  destruct (argmax_from_spec l 1 x O v k H) as [[[-> ->]|[t [Ht [-> Hn]]]] [Hb Hall]].
  - split; [simpl; lia|]. split; [reflexivity|]. intros y [<-|Hy]; [lra|]. apply Hall, Hy.
  - split; [simpl; lia|]. split; [exact Hn|]. intros y [<-|Hy]; [lra|]. apply Hall, Hy.
Qed.

(* ------------------------------------------------------------------ *)
(** ** One iteration of [pivoted_cholesky] *)

Lemma NoDup_perm_seq n l : Permutation (seq 0 n) l -> NoDup l.
Proof. intros H. apply (Permutation_NoDup H), seq_NoDup. Qed.

Lemma In_perm_seq n l i : Permutation (seq 0 n) l -> In i l <-> (i < n)%nat.
Proof.
  intros H. split; intros Hi.
  - apply Permutation_sym in H. apply (Permutation_in _ H), in_seq in Hi. lia.
  - apply (Permutation_in _ H), in_seq. lia.
Qed.

Section Swap.
Variables (n m idx : nat) (perm : list nat).
Hypothesis Hperm : Permutation (seq 0 n) perm.
Hypothesis Hidx : (m <= idx < n)%nat.

Let perm' := set_nth (set_nth perm m (nth idx perm O)) idx (nth m perm O).

Lemma length_perm : length perm = n.
Proof. rewrite <- (Permutation_length Hperm). apply length_seq. Qed.

Lemma swap_is_perm : Permutation (seq 0 n) perm'.
Proof.
  eapply Permutation_trans; [exact Hperm|]. apply swap_perm; rewrite length_perm; lia.
Qed.

Lemma swap_firstn : firstn m perm' = firstn m perm.
Proof. unfold perm'. rewrite !firstn_set_nth by lia. reflexivity. Qed.

Lemma swap_pivot : nth m perm' O = nth idx perm O.
Proof.
  unfold perm'. pose proof length_perm.
  destruct (Nat.eq_dec idx m) as [->|Hne].
  - rewrite nth_set_nth_eq by (rewrite length_set_nth; lia). reflexivity.
  - rewrite nth_set_nth_neq by lia. apply nth_set_nth_eq. lia.
Qed.

Lemma swap_skipn : Permutation (skipn m perm) (nth idx perm O :: skipn (S m) perm').
Proof.
  pose proof length_perm as Hlen.
  rewrite <- swap_pivot, <- skipn_nth_cons
    by (unfold perm'; rewrite !length_set_nth; lia).
  apply (Permutation_app_inv_l (firstn m perm)).
  rewrite firstn_skipn, <- swap_firstn, firstn_skipn.
  apply swap_perm; lia.
Qed.

Lemma swap_pivot_in : In (nth idx perm O) (skipn m perm).
Proof. apply (Permutation_in _ (Permutation_sym swap_skipn)). left. reflexivity. Qed.

Lemma swap_nodup_rest : NoDup (nth idx perm O :: skipn (S m) perm').
Proof.
  apply (Permutation_NoDup swap_skipn).
  apply (NoDup_app_remove_l (firstn m perm)). rewrite firstn_skipn.
  exact (NoDup_perm_seq n perm Hperm).
Qed.

(** Every index below [n] is an earlier pivot, the new pivot or still
    unpivoted, and these are disjoint. *)
Lemma swap_cover i :
  (i < n)%nat ->
  In i (firstn m perm) \/ i = nth idx perm O \/ In i (skipn (S m) perm').
Proof.
  intros Hi. apply (In_perm_seq n perm i Hperm) in Hi.
  rewrite <- (firstn_skipn m perm) in Hi. apply in_app_or in Hi as [Hi|Hi]; [left; exact Hi|].
  right. apply (Permutation_in _ swap_skipn) in Hi. destruct Hi as [->|Hi]; auto.
Qed.

Lemma swap_disjoint i :
  In i (firstn m perm) -> i <> nth idx perm O /\ ~ In i (skipn (S m) perm').
Proof.
  intros Hi.
  assert (Hnd : NoDup (firstn m perm ++ skipn m perm))
    by (rewrite firstn_skipn; exact (NoDup_perm_seq n perm Hperm)).
  pose proof (NoDup_app_disjoint _ _ i Hnd Hi) as Hni.
  split.
  - intros ->. apply Hni, swap_pivot_in.
  - intros H. apply Hni. apply (Permutation_in _ (Permutation_sym swap_skipn)). right. exact H.
Qed.
End Swap.

Lemma nth_map_R (f : nat -> R) l k : (k < length l)%nat -> nth k (map f l) 0 = f (nth k l O).
Proof.
  intros Hk. rewrite (nth_indep _ 0 (f O)) by (rewrite length_map; exact Hk).
  apply map_nth.
Qed.

Lemma pc_step_spec A n m st :
  Permutation (seq 0 n) (pc_perm st) -> (m < n)%nat ->
  exists idx, (m <= idx < n)%nat /\
   let perm := pc_perm st in
   let perm' := set_nth (set_nth perm m (nth idx perm O)) idx (nth m perm O) in
   let p := nth idx perm O in
   let v := pc_diag st p in
   let pi_i := skipn (S m) perm' in
   let st' := pc_step A n m st in
   (forall i, In i (skipn m perm) -> pc_diag st i <= v) /\
   pc_perm st' = perm' /\
   (if Nat.ltb (S m) n then
      pc_diag st' = scatter (pc_diag st) pi_i
                     (map (fun i => pc_diag st i - pc_lnew A m st p i ^ 2) pi_i) /\
      pc_L st' = set_row (pc_L st) m
                   (scatter (scatter (pc_L st m) [p] [sqrt v]) pi_i
                      (map (pc_lnew A m st p) pi_i)) /\
      pc_err st' = lsum pi_i (fun i => Rabs (pc_diag st' i))
    else
      pc_diag st' = pc_diag st /\
      pc_L st' = set_row (pc_L st) m (scatter (pc_L st m) [p] [sqrt v]) /\
      pc_err st' = pc_err st).
Proof.
  intros Hperm Hm.
  pose proof (length_perm n (pc_perm st) Hperm) as Hlen.
  remember (torch_max (gather (pc_diag st) (skipn m (pc_perm st)))) as tm eqn:Htm.
  destruct tm as [v k].
  assert (Hne : gather (pc_diag st) (skipn m (pc_perm st)) <> []).
  { unfold gather. intros H. apply (f_equal (@length R)) in H.
    rewrite length_map, length_skipn in H. simpl in H. lia. }
  destruct (torch_max_spec _ v k Hne (eq_sym Htm)) as [Hk [Hv Hall]].
  unfold gather in Hk. rewrite length_map, length_skipn in Hk.
  unfold gather in Hv. rewrite nth_map_R, nth_skipn in Hv by (rewrite length_skipn; lia).
  exists (k + m)%nat. split; [lia|].
  cbv zeta. rewrite (Nat.add_comm m k) in Hv.
  assert (Hpiv := swap_pivot n m (k + m) (pc_perm st) Hperm ltac:(lia)).
  cbv zeta in Hpiv.
  split.
  { intros i Hi. rewrite Hv. apply Hall. unfold gather. apply in_map. exact Hi. }
  unfold pc_step. rewrite <- Htm. cbv beta iota zeta.
  rewrite Hpiv, <- Hv, Nat.add_1_r.
  set (perm' := set_nth (set_nth (pc_perm st) m (nth (k + m) (pc_perm st) O))
                  (k + m) (nth m (pc_perm st) O)).
  set (p := nth (k + m) (pc_perm st) O).
  assert (HLm : scatter (pc_L st m) [p] [sqrt (pc_diag st p)] p = sqrt (pc_diag st p))
    by (simpl; now rewrite Nat.eqb_refl).
  destruct (Nat.ltb (S m) n) eqn:Hlt.
  - assert (Hnew : map (fun v0 => v0 / scatter (pc_L st m) [p] [sqrt (pc_diag st p)] p)
                     (if Nat.ltb 0 m
                      then zip_with Rminus (gather (A p) (skipn (S m) perm'))
                             (map (fun i => rsum m (fun j => pc_L st j p * pc_L st j i))
                                (skipn (S m) perm'))
                      else gather (A p) (skipn (S m) perm'))
                   = map (pc_lnew A m st p) (skipn (S m) perm')).
    { rewrite HLm. unfold gather, pc_lnew.
      destruct (Nat.ltb_spec 0 m) as [H0|H0].
      - rewrite zip_with_map, map_map. reflexivity.
      - assert (m = O) by lia. subst m. rewrite map_map. apply map_ext. intros i.
        simpl. f_equal. ring. }
    rewrite Hnew. cbn [pc_perm pc_diag pc_L pc_err].
    split; [reflexivity|]. unfold gather at 1. rewrite zip_with_map.
    split; [reflexivity|]. split; [reflexivity|]. apply norm1_gather.
  - cbn [pc_perm pc_diag pc_L pc_err]. repeat split; reflexivity.
Qed.

(* ------------------------------------------------------------------ *)
(** ** The batched loop *)

Lemma combine_map_r {X Y} (l : list X) (f : X -> Y) :
  combine l (map f l) = map (fun x => (x, f x)) l.
Proof. induction l; simpl; [reflexivity|now rewrite IHl]. Qed.

Lemma pc_loop_spec As n tol fuel m :
  match pc_loop As n tol fuel m (map (fun A => pc_iter A n m) As) with
  | Ok (m', sts) =>
      sts = map (fun A => pc_iter A n m') As /\ (m <= m' <= m + fuel)%nat /\
      (m' = (m + fuel)%nat \/
       exists e, batch_max (map pc_err sts) = Some e /\ ~ tol < e)
  | Err e => As = [] /\ e = EmptyReduction
  end.
Proof.
  revert m. induction fuel as [|fuel IH]; intros m; simpl.
  - split; [reflexivity|]. split; [lia|]. left; lia.
  - destruct (batch_max (map pc_err (map (fun A => pc_iter A n m) As))) as [e|] eqn:Hb.
    + destruct (Rlt_dec tol e) as [Hlt|Hge].
      * rewrite combine_map_r, map_map.
        change (map (fun A => pc_step A n m (pc_iter A n m)) As)
          with (map (fun A => pc_iter A n (S m)) As).
        specialize (IH (S m)).
        destruct (pc_loop As n tol fuel (S m) (map (fun A => pc_iter A n (S m)) As))
          as [[m' sts]|e'].
        -- destruct IH as [Hs [Hm Hstop]]. split; [exact Hs|]. split; [lia|].
           destruct Hstop as [->|Hstop]; [left; lia|right; exact Hstop].
        -- exact IH.
      * split; [reflexivity|]. split; [lia|]. right. exists e. split; assumption.
    + split; [|reflexivity]. destruct As; [reflexivity|discriminate].
Qed.

(** Any run of [pivoted_cholesky_states] performs [m <= n] iterations, and the
    final state of every batch element is [pc_iter A n m]. *)
Lemma pivoted_cholesky_states_spec As n max_iter tol m sts :
  pivoted_cholesky_states As n max_iter tol = Ok (m, sts) ->
  sts = map (fun A => pc_iter A n m) As /\ (m <= n)%nat /\
  (m = Z.to_nat (Z.min max_iter (Z.of_nat n)) \/
   exists e, batch_max (map pc_err sts) = Some e /\ ~ tol < e).
Proof.
  unfold pivoted_cholesky_states. destruct (Z.min max_iter (Z.of_nat n) <? 0)%Z eqn:Hneg;
    [discriminate|]. intros H.
  pose proof (pc_loop_spec As n tol (Z.to_nat (Z.min max_iter (Z.of_nat n))) O) as Hs.
  change (map (fun A => pc_init A n) As) with (map (fun A => pc_iter A n O) As) in H.
  rewrite H in Hs. destruct Hs as [Hsts [Hm Hstop]].
  split; [exact Hsts|]. split; [|simpl in Hstop; exact Hstop].
  apply Z.ltb_ge in Hneg. lia.
Qed.

(* ------------------------------------------------------------------ *)
(** ** The permutation and the frame of one iteration *)

Lemma pc_step_perm A n m st :
  Permutation (seq 0 n) (pc_perm st) -> (m < n)%nat ->
  exists idx, (m <= idx < n)%nat /\
    pc_perm (pc_step A n m st)
    = set_nth (set_nth (pc_perm st) m (nth idx (pc_perm st) O)) idx (nth m (pc_perm st) O).
Proof.
  intros Hp Hm. destruct (pc_step_spec A n m st Hp Hm) as [idx [Hidx [_ [H _]]]].
  exists idx. split; assumption.
Qed.

Lemma pc_iter_perm A n j : (j <= n)%nat -> Permutation (seq 0 n) (pc_perm (pc_iter A n j)).
Proof.
  induction j as [|j IH]; intros Hj; [reflexivity|]. simpl.
  destruct (pc_step_perm A n j _ (IH ltac:(lia)) ltac:(lia)) as [idx [Hidx ->]].
  apply swap_is_perm; [apply IH; lia|exact Hidx].
Qed.

Lemma pc_step_frame A n m st :
  Permutation (seq 0 n) (pc_perm st) -> (m < n)%nat ->
  forall i, ~ In i (skipn (S m) (pc_perm (pc_step A n m st))) ->
  pc_diag (pc_step A n m st) i = pc_diag st i.
Proof.
  intros Hp Hm i Hi.
  destruct (pc_step_spec A n m st Hp Hm) as [idx [Hidx [_ [Hperm' Hbr]]]].
  cbv zeta in *. rewrite Hperm' in Hi.
  destruct (Nat.ltb (S m) n).
  - destruct Hbr as [-> _]. apply scatter_notin. exact Hi.
  - destruct Hbr as [-> _]. reflexivity.
Qed.

(* ------------------------------------------------------------------ *)
(** ** The residual invariant on symmetric PSD inputs *)

Lemma resid_sym A L n j : symmetric n A -> symmetric n (resid A L j).
Proof.
  intros Hs a b Ha Hb. unfold resid. rewrite Hs by assumption.
  f_equal. apply rsum_ext. intros; ring.
Qed.

Lemma resid_set_row A L j row a b :
  resid A (set_row L j row) (S j) a b = resid A L j a b - row a * row b.
Proof.
  unfold resid. simpl. unfold set_row at 3 4. rewrite Nat.eqb_refl.
  rewrite (rsum_ext j (fun r => set_row L j row r a * set_row L j row r b)
                      (fun r => L r a * L r b)).
  - ring.
  - intros r Hr. unfold set_row. destruct (Nat.eqb_spec r j); [lia|reflexivity].
Qed.

Lemma in_firstn_S_swap n m idx perm a :
  Permutation (seq 0 n) perm -> (m <= idx < n)%nat ->
  In a (firstn (S m) (set_nth (set_nth perm m (nth idx perm O)) idx (nth m perm O))) ->
  In a (firstn m perm) \/ a = nth idx perm O.
Proof.
  intros Hp Hidx Ha.
  set (perm' := set_nth (set_nth perm m (nth idx perm O)) idx (nth m perm O)) in *.
  assert (Hp' : Permutation (seq 0 n) perm') by (apply swap_is_perm; assumption).
  assert (Han : (a < n)%nat).
  { apply (In_perm_seq n perm' a Hp').
    rewrite <- (firstn_skipn (S m) perm'). apply in_or_app. left. exact Ha. }
  destruct (swap_cover n m idx perm Hp Hidx a Han) as [H|[H|H]]; [left; exact H|right; exact H|].
  exfalso.
  assert (Hnd : NoDup (firstn (S m) perm' ++ skipn (S m) perm'))
    by (rewrite firstn_skipn; exact (NoDup_perm_seq n perm' Hp')).
  exact (NoDup_app_disjoint _ _ a Hnd Ha H).
Qed.

Section PsdInvariant.
Variables (A : mat) (n : nat).
Hypothesis Hsym : symmetric n A.
Hypothesis Hpsd : psd n A.

Lemma pc_inv_init : pc_inv A n O (pc_init A n).
Proof.
  unfold pc_inv, pc_init, resid; cbn [pc_perm pc_diag pc_L pc_err rsum].
  split; [reflexivity|]. split; [reflexivity|].
  split; [intros; ring|]. split; [intros a b []|]. split.
  - intros x. rewrite (quad_ext n _ A x x); [apply Hpsd| |reflexivity]. intros; ring.
  - intros _. rewrite norm1_gather. reflexivity.
Qed.

Lemma pc_inv_step j st :
  (j < n)%nat -> pc_inv A n j st -> pc_inv A n (S j) (pc_step A n j st).
Proof.
  intros Hj [HP [HZ [HD [HF [HS HE]]]]].
  destruct (pc_step_spec A n j st HP Hj) as [idx [Hidx [Hmax [Hperm' Hbr]]]].
  cbv zeta in Hperm', Hbr.
  set (P := pc_perm st) in *.
  set (P' := set_nth (set_nth P j (nth idx P O)) idx (nth j P O)) in *.
  set (p := nth idx P O) in *.
  set (Sr := resid A (pc_L st) j) in *.
  set (l := fun b => Sr p b / sqrt (Sr p p)).
  assert (HP' : Permutation (seq 0 n) P') by (apply swap_is_perm; assumption).
  assert (Hpin : In p (skipn j P)) by (apply swap_pivot_in with (n := n); assumption).
  assert (Hpn : (p < n)%nat).
  { apply (In_perm_seq n P p HP). rewrite <- (firstn_skipn j P).
    apply in_or_app. right. exact Hpin. }
  assert (Hv : pc_diag st p = Sr p p) by (apply HD; exact Hpin).
  assert (HsymS : symmetric n Sr) by (apply resid_sym; exact Hsym).
  assert (Hnd : NoDup (p :: skipn (S j) P')) by (apply swap_nodup_rest with (n := n); assumption).
  inversion Hnd as [|? ? Hpni Hndi]; subst.
  set (row := scatter (scatter (pc_L st j) [p] [sqrt (pc_diag st p)]) (skipn (S j) P')
                (map (pc_lnew A j st p) (skipn (S j) P'))).
  assert (HL' : pc_L (pc_step A n j st) = set_row (pc_L st) j row).
  { destruct (Nat.ltb (S j) n) eqn:Hlt.
    - destruct Hbr as [_ [-> _]]. reflexivity.
    - destruct Hbr as [_ [-> _]]. unfold row.
      rewrite (skipn_all2 (n := S j) P'); [reflexivity|].
      rewrite (Permutation_length (Permutation_sym HP')), length_seq.
      apply Nat.ltb_ge in Hlt. lia. }
  assert (Hrow : forall b, (b < n)%nat -> row b = l b).
  { intros b Hb. unfold row, l.
    destruct (swap_cover n j idx P HP Hidx b Hb) as [H|[H|H]].
    - destruct (swap_disjoint n j idx P HP Hidx b H) as [Hbp Hbi].
      rewrite scatter_notin by exact Hbi. simpl.
      destruct (Nat.eqb_spec b p) as [|_]; [contradiction|].
      rewrite HZ by lia. rewrite HsymS by assumption.
      rewrite (HF b p H Hpn). unfold Rdiv. ring.
    - subst b. rewrite scatter_notin by exact Hpni. simpl. rewrite Nat.eqb_refl.
      rewrite Hv. symmetry. apply sqrt_div_self. apply (psd_diag n); assumption.
    - rewrite scatter_map_in by assumption. unfold pc_lnew. rewrite Hv. reflexivity. }
  assert (Hres : forall a b, (a < n)%nat -> (b < n)%nat ->
            resid A (pc_L (pc_step A n j st)) (S j) a b = Sr a b - l a * l b).
  { intros a b Ha Hb. rewrite HL', resid_set_row, !Hrow by assumption. reflexivity. }
  assert (Hsub : forall i, In i (skipn (S j) P') -> In i (skipn j P)).
  { intros i Hi. apply (Permutation_in _ (Permutation_sym (swap_skipn n j idx P HP Hidx))).
    right. exact Hi. }
  assert (Hin_n : forall i, In i P' -> (i < n)%nat) by (intros i; apply In_perm_seq; exact HP').
  assert (Hskip_n : forall i, In i (skipn (S j) P') -> (i < n)%nat).
  { intros i Hi. apply Hin_n. rewrite <- (firstn_skipn (S j) P'). apply in_or_app. right. exact Hi. }
  unfold pc_inv. rewrite Hperm'.
  split; [exact HP'|].
  split.
  { intros r i Hr. rewrite HL'. unfold set_row. destruct (Nat.eqb_spec r j); [lia|].
    apply HZ. lia. }
  split.
  { intros i Hi. destruct (Nat.ltb (S j) n) eqn:Hlt.
    - destruct Hbr as [Hd _]. rewrite Hd, scatter_map_in by assumption.
      rewrite Hres by (apply Hskip_n; exact Hi).
      rewrite HD by (apply Hsub; exact Hi). fold Sr.
      rewrite <- (Hrow i) by (apply Hskip_n; exact Hi). unfold row.
      rewrite scatter_map_in by assumption. ring.
    - rewrite (skipn_all2 (n := S j) P') in Hi; [destruct Hi|].
      rewrite (Permutation_length (Permutation_sym HP')), length_seq.
      apply Nat.ltb_ge in Hlt. lia. }
  split.
  { intros a b Ha Hb.
    assert (Han : (a < n)%nat).
    { apply Hin_n. rewrite <- (firstn_skipn (S j) P'). apply in_or_app. left. exact Ha. }
    rewrite Hres by assumption.
    destruct (in_firstn_S_swap n j idx P a HP Hidx Ha) as [H|H].
    - rewrite (HF a b H Hb). unfold l. rewrite (HsymS p a) by assumption.
      rewrite (HF a p H Hpn). unfold Rdiv. ring.
    - subst a. exact (schur_row n p Sr Hpn HsymS HS b Hb). }
  split.
  { intros x. rewrite (quad_ext n _ (fun a b => Sr a b - l a * l b) x x);
      [| intros; apply Hres; assumption | reflexivity].
    exact (schur_psd n p Sr Hpn HsymS HS x). }
  intros HSj. destruct (Nat.ltb_spec (S j) n) as [_|Hge]; [|lia].
  destruct Hbr as [_ [_ He]]. rewrite He. reflexivity.
Qed.

Lemma pc_iter_inv j : (j <= n)%nat -> pc_inv A n j (pc_iter A n j).
Proof.
  induction j as [|j IH]; intros Hj; [exact pc_inv_init|].
  apply pc_inv_step; [lia|]. apply IH. lia.
Qed.
Lemma pc_err_step j st :
  (j < n)%nat -> pc_inv A n j st -> pc_err (pc_step A n j st) <= pc_err st.
Proof.
  intros Hj Hinv.
  pose proof (pc_inv_step j st Hj Hinv) as [_ [_ [HD' [_ [HS' _]]]]].
  destruct Hinv as [HP [HZ [HD [HF [HS HE]]]]].
  destruct (pc_step_spec A n j st HP Hj) as [idx [Hidx [Hmax [Hperm' Hbr]]]].
  cbv zeta in Hperm', Hbr.
  set (P := pc_perm st) in *.
  set (P' := set_nth (set_nth P j (nth idx P O)) idx (nth j P O)) in *.
  set (p := nth idx P O) in *.
  assert (HP' : Permutation (seq 0 n) P') by (apply swap_is_perm; assumption).
  destruct (Nat.ltb (S j) n) eqn:Hlt; [|destruct Hbr as [_ [_ ->]]; lra].
  destruct Hbr as [Hd [_ He]]. rewrite He, (HE Hj).
  rewrite (lsum_perm _ _ _ (swap_skipn n j idx P HP Hidx)).
  rewrite lsum_cons.
  assert (Hnd : NoDup (p :: skipn (S j) P')) by (apply swap_nodup_rest with (n := n); assumption).
  inversion Hnd as [|? ? Hpni Hndi]; subst.
  assert (Hskip_n : forall i, In i (skipn (S j) P') -> (i < n)%nat).
  { intros i Hi. apply (In_perm_seq n P' i HP').
    rewrite <- (firstn_skipn (S j) P'). apply in_or_app. right. exact Hi. }
  assert (Hle : lsum (skipn (S j) P') (fun i => Rabs (pc_diag (pc_step A n j st) i))
                <= lsum (skipn (S j) P') (fun i => Rabs (pc_diag st i))).
  { apply lsum_le. intros i Hi.
    assert (H0 : 0 <= pc_diag (pc_step A n j st) i).
    { rewrite HD' by (rewrite Hperm'; exact Hi).
      apply (psd_diag n); [apply resid_sym; exact Hsym|exact HS'|apply Hskip_n; exact Hi]. }
    assert (H1 : pc_diag (pc_step A n j st) i <= pc_diag st i).
    { rewrite Hd, scatter_map_in by assumption.
      assert (0 <= pc_lnew A j st p i ^ 2) by (apply pow2_ge_0). lra. }
    rewrite (Rabs_right (pc_diag (pc_step A n j st) i)) by lra.
    pose proof (Rle_abs (pc_diag st i)). lra. }
  pose proof (Rabs_pos (pc_diag st p)). unfold P', p in *. lra.
Qed.

(** When the loop stops, the residual vanishes: either every index is a
    pivot, or the unpivoted diagonal is zero. *)
Lemma pc_resid_zero m st :
  pc_inv A n m st -> (m = n \/ ((m < n)%nat /\ pc_err st <= 0)) ->
  forall a b, (a < n)%nat -> (b < n)%nat -> resid A (pc_L st) m a b = 0.
Proof.
  intros [HP [HZ [HD [HF [HS HE]]]]] Hstop a b Ha Hb.
  pose proof (length_perm n _ HP) as Hlen.
  apply (In_perm_seq n _ a HP) in Ha as Ha'.
  rewrite <- (firstn_skipn m (pc_perm st)) in Ha'. apply in_app_or in Ha' as [Hf|Hs].
  - apply HF; assumption.
  - destruct Hstop as [->|[Hm He]].
    + rewrite skipn_all2 in Hs by lia. destruct Hs.
    + rewrite (HE Hm) in He.
      assert (Hz : forall i, In i (skipn m (pc_perm st)) -> Rabs (pc_diag st i) = 0).
      { apply lsum_zero_each; [intros; apply Rabs_pos|exact He]. }
      assert (Haa : resid A (pc_L st) m a a = 0).
      { rewrite <- HD by exact Hs. pose proof (Hz a Hs) as Hza.
        destruct (Req_dec (pc_diag st a) 0) as [|Hne]; [assumption|].
        exfalso. apply (Rabs_no_R0 _ Hne), Hza. }
      apply (psd_zero_diag_row n); [apply resid_sym; exact Hsym|exact HS|apply (In_perm_seq n _ a HP)|exact Haa|exact Hb].
      rewrite <- (firstn_skipn m (pc_perm st)). apply in_or_app. right. exact Hs.
Qed.
End PsdInvariant.

(* ------------------------------------------------------------------ *)
(** ** Runs of [pivoted_cholesky] *)

Lemma pc_err_iter_step A n j :
  symmetric n A -> psd n A -> (j < n)%nat ->
  pc_err (pc_iter A n (S j)) <= pc_err (pc_iter A n j).
Proof.
  intros Hsym Hpsd Hj. simpl. eapply pc_err_step; try eassumption.
  apply pc_iter_inv; try assumption. lia.
Qed.

Lemma pc_run_one A n tol :
  (1 <= n)%nat -> tol < pc_err (pc_init A n) ->
  pivoted_cholesky_states [A] n 1 tol = Ok (1%nat, [pc_iter A n 1]).
Proof.
  intros Hn Ht. unfold pivoted_cholesky_states.
  replace (Z.min 1 (Z.of_nat n)) with 1%Z by lia. change (Z.to_nat 1) with 1%nat.
  cbn -[pc_step pc_init].
  destruct (Rlt_dec tol (pc_err (pc_init A n))) as [_|H]; [reflexivity|contradiction].
Qed.

Lemma ones_err0 : pc_err (pc_init ones 1) = 1.
Proof. unfold pc_init, norm1, ones; cbn. rewrite Rabs_R1. ring. Qed.

Lemma neg_ones_err0 : pc_err (pc_init neg_ones 1) = 1.
Proof. unfold pc_init, norm1, neg_ones; cbn. rewrite Rabs_left by lra. ring. Qed.

Lemma indef2_err0 : pc_err (pc_iter indef2 2 0) = 2.
Proof.
  unfold pc_iter, pc_init, norm1, indef2; cbn.
  rewrite Rabs_R1, Rabs_left by lra. ring.
Qed.

Lemma indef2_err1 : pc_err (pc_iter indef2 2 1) = 5.
Proof.
  unfold pc_iter, pc_step, pc_init.
  cbn [pc_perm pc_diag pc_L gather skipn seq map torch_max argmax_from].
  destruct (Rlt_dec (indef2 0%nat 0%nat) (indef2 1%nat 1%nat)) as [H|H];
    [unfold indef2 in H; lra|].
  cbn. rewrite sqrt_1. unfold indef2, norm1. simpl.
  rewrite Rabs_left by lra. lra.
Qed.

(** The pivot entry written in row [m] of [L] is the square root of the
    selected diagonal value, whatever its sign. *)
Lemma pc_step_pivot_entry A n m st :
  Permutation (seq 0 n) (pc_perm st) -> (m < n)%nat ->
  pc_L (pc_step A n m st) m (nth m (pc_perm (pc_step A n m st)) O)
  = sqrt (pc_diag st (nth m (pc_perm (pc_step A n m st)) O)).
Proof.
  intros Hp Hm. destruct (pc_step_spec A n m st Hp Hm) as [idx [Hidx [_ [Hperm' Hbr]]]].
  cbv zeta in Hperm', Hbr. rewrite Hperm', (swap_pivot n m idx (pc_perm st) Hp Hidx).
  pose proof (swap_nodup_rest n m idx (pc_perm st) Hp Hidx) as Hnd.
  apply NoDup_cons_iff in Hnd as [Hni _].
  destruct (Nat.ltb (S m) n); destruct Hbr as [_ [HL _]]; rewrite HL; unfold set_row;
    rewrite Nat.eqb_refl.
  - rewrite scatter_notin by exact Hni. simpl. rewrite Nat.eqb_refl. reflexivity.
  - simpl. rewrite Nat.eqb_refl. reflexivity.
Qed.

(** The loop runs, and makes no test on the diagonal values, as soon as the
    batch is non-empty and [max_iter >= 0]. *)
Lemma pc_states_ok As n max_iter tol :
  As <> [] -> (0 <= max_iter)%Z ->
  exists m, pivoted_cholesky_states As n max_iter tol
            = Ok (m, map (fun A => pc_iter A n m) As).
Proof.
  intros Hne Hmi. unfold pivoted_cholesky_states.
  replace (Z.min max_iter (Z.of_nat n) <? 0)%Z with false by (symmetry; apply Z.ltb_ge; lia).
  pose proof (pc_loop_spec As n tol (Z.to_nat (Z.min max_iter (Z.of_nat n))) O) as Hs.
  change (map (fun A => pc_init A n) As) with (map (fun A => pc_iter A n O) As).
  destruct (pc_loop As n tol (Z.to_nat (Z.min max_iter (Z.of_nat n))) 0
              (map (fun A => pc_iter A n O) As)) as [[m sts]|e]; [|destruct Hs; contradiction].
  destruct Hs as [-> _]. exists m. reflexivity.
Qed.

Lemma fold_Rmax_bound x l y : In y (x :: l) -> y <= fold_right Rmax x l.
Proof.
  induction l as [|z l IH]; intros Hy.
  - destruct Hy as [<-|[]]. simpl. lra.
  - cbn [fold_right]. destruct Hy as [<-|[<-|Hy]].
    + eapply Rle_trans; [apply IH; left; reflexivity|apply Rmax_r].
    + apply Rmax_l.
    + eapply Rle_trans; [apply IH; right; exact Hy|apply Rmax_r].
Qed.

Lemma fold_Rmax_in x l : In (fold_right Rmax x l) (x :: l).
Proof.
  induction l as [|z l IH]; [left; reflexivity|]. cbn [fold_right].
  unfold Rmax at 1. destruct (Rle_dec z (fold_right Rmax x l)).
  - destruct IH as [H|H]; [left; exact H|right; right; exact H].
  - right; left; reflexivity.
Qed.

Lemma batch_max_ge l e x : batch_max l = Some e -> In x l -> x <= e.
Proof.
  destruct l as [|y l]; intros H Hx; [destruct Hx|]. injection H as <-.
  apply fold_Rmax_bound. exact Hx.
Qed.

Lemma batch_max_in l e : batch_max l = Some e -> In e l.
Proof.
  destruct l as [|y l]; intros H; [discriminate|]. injection H as <-. apply fold_Rmax_in.
Qed.

Lemma batch_max_single x : batch_max [x] = Some x.
Proof. reflexivity. Qed.

Lemma in_pc_errors As n j e : In e (pc_errors As n j) -> exists A, In A As /\ e = pc_err (pc_iter A n j).
Proof.
  unfold pc_errors. rewrite map_map. intros H. apply in_map_iff in H as [A [<- HA]].
  exists A. split; [exact HA|reflexivity].
Qed.

Lemma pc_errors_in As n j A : In A As -> In (pc_err (pc_iter A n j)) (pc_errors As n j).
Proof. intros HA. unfold pc_errors. rewrite map_map. apply (in_map (fun A => pc_err (pc_iter A n j))). exact HA. Qed.

(** Every iteration the loop performs was entered with a batch error above
    the tolerance. *)
Lemma pc_loop_runs As n tol fuel m m' sts :
  pc_loop As n tol fuel m (map (fun A => pc_iter A n m) As) = Ok (m', sts) ->
  forall j, (m <= j < m')%nat ->
    exists e, batch_max (pc_errors As n j) = Some e /\ tol < e.
Proof.
  revert m. induction fuel as [|fuel IH]; intros m H j Hj; cbn [pc_loop] in H.
  - injection H as <- _. lia.
  - destruct (batch_max (map pc_err (map (fun A => pc_iter A n m) As))) as [e|] eqn:Hb;
      [|discriminate].
    destruct (Rlt_dec tol e) as [Hlt|Hge].
    + rewrite combine_map_r, map_map in H.
      change (map (fun A => pc_step A n m (pc_iter A n m)) As)
        with (map (fun A => pc_iter A n (S m)) As) in H.
      destruct (Nat.eq_dec j m) as [->|Hne]; [exists e; split; assumption|].
      apply (IH (S m) H). lia.
    + injection H as <- _. lia.
Qed.

(** The shape of every successful run: the final states, the bound on the
    number [m] of iterations, the test passed before each of them, and the
    reason the loop stopped. *)
Lemma pc_states_char As n max_iter tol m sts :
  pivoted_cholesky_states As n max_iter tol = Ok (m, sts) ->
  sts = map (fun A => pc_iter A n m) As /\ (0 <= max_iter)%Z /\
  (Z.of_nat m <= Z.min max_iter (Z.of_nat n))%Z /\ (m <= n)%nat /\
  (forall j, (j < m)%nat -> exists e, batch_max (pc_errors As n j) = Some e /\ tol < e) /\
  (Z.of_nat m = Z.min max_iter (Z.of_nat n) \/
   exists e, batch_max (pc_errors As n m) = Some e /\ e <= tol).
Proof.
  intros H. pose proof (pivoted_cholesky_states_spec _ _ _ _ _ _ H) as [Hsts [Hmn Hstop]].
  unfold pivoted_cholesky_states in H.
  destruct (Z.min max_iter (Z.of_nat n) <? 0)%Z eqn:Hneg; [discriminate|].
  apply Z.ltb_ge in Hneg.
  change (map (fun A => pc_init A n) As) with (map (fun A => pc_iter A n O) As) in H.
  pose proof (pc_loop_spec As n tol (Z.to_nat (Z.min max_iter (Z.of_nat n))) O) as Hs.
  rewrite H in Hs. destruct Hs as [_ [Hm _]].
  split; [exact Hsts|]. split; [lia|]. split; [lia|]. split; [exact Hmn|]. split.
  - intros j Hj. apply (pc_loop_runs As n tol _ O m sts H). lia.
  - destruct Hstop as [Hm'|[e [He Hne]]]; [left; lia|right].
    subst sts. exists e. split; [exact He|lra].
Qed.

Lemma pc_errors_single A n j : batch_max (pc_errors [A] n j) = Some (pc_err (pc_iter A n j)).
Proof. reflexivity. Qed.

Lemma pc_loop_iter As n tol fuel m :
  pc_loop As n tol (S fuel) m (map (fun A => pc_iter A n m) As)
  = match batch_max (pc_errors As n m) with
    | None => Err EmptyReduction
    | Some e =>
        if Rlt_dec tol e then pc_loop As n tol fuel (S m) (map (fun A => pc_iter A n (S m)) As)
        else Ok (m, map (fun A => pc_iter A n m) As)
    end.
Proof.
  cbn [pc_loop]. unfold pc_errors. destruct (batch_max _); [|reflexivity].
  destruct (Rlt_dec tol r); [|reflexivity]. rewrite combine_map_r, map_map. reflexivity.
Qed.

Lemma sqrt_4 : sqrt 4 = 2.
Proof. replace 4 with (Rsqr 2) by (unfold Rsqr; ring). apply sqrt_Rsqr. lra. Qed.

Lemma A2_err0 : pc_err (pc_iter A2 2 0) = 6.
Proof. unfold pc_iter, pc_init, norm1, A2; cbn. rewrite !Rabs_right by lra. ring. Qed.

Lemma A2_iter1 :
  pc_perm (pc_iter A2 2 1) = [1%nat; 0%nat] /\ pc_err (pc_iter A2 2 1) = 1.
Proof.
  unfold pc_iter, pc_step, pc_init.
  cbn [pc_perm pc_diag pc_L gather skipn seq map torch_max argmax_from].
  destruct (Rlt_dec (A2 0%nat 0%nat) (A2 1%nat 1%nat)) as [_|H]; [|unfold A2 in H; lra].
  cbn. rewrite sqrt_4. unfold A2, norm1. simpl.
  assert (E : 2 - 2 / 2 * (2 / 2 * 1) = 1) by field. rewrite E, Rabs_R1.
  split; [reflexivity|ring].
Qed.

Lemma ones2_err0 : pc_err (pc_iter ones 2 0) = 2.
Proof. unfold pc_iter, pc_init, norm1, ones; cbn. rewrite Rabs_R1. ring. Qed.

Lemma ones2_err1 : pc_err (pc_iter ones 2 1) = 0.
Proof.
  unfold pc_iter, pc_step, pc_init.
  cbn [pc_perm pc_diag pc_L gather skipn seq map torch_max argmax_from].
  destruct (Rlt_dec (ones 0%nat 0%nat) (ones 1%nat 1%nat)) as [H|_]; [unfold ones in H; lra|].
  cbn. unfold ones, norm1. simpl. rewrite sqrt_1. 
  assert (E : 1 - 1 / 1 * (1 / 1 * 1) = 0) by field. rewrite E, Rabs_R0. ring.
Qed.

Lemma A2_states (max_iter : Z) tol :
  (max_iter = 1 \/ max_iter = 2)%Z -> 0 <= tol < 1 ->
  pivoted_cholesky_states [A2] 2 max_iter tol
  = Ok (Z.to_nat max_iter, [pc_iter A2 2 (Z.to_nat max_iter)]).
Proof.
  intros Hm Ht. unfold pivoted_cholesky_states.
  change (map (fun A => pc_init A 2) [A2]) with (map (fun A => pc_iter A 2 O) [A2]).
  destruct Hm as [-> | ->].
  - change (Z.min 1 (Z.of_nat 2) <? 0)%Z with false. change (Z.to_nat (Z.min 1 (Z.of_nat 2))) with 1%nat.
    cbv iota. rewrite pc_loop_iter. cbn [pc_errors map batch_max fold_right]. rewrite A2_err0.
    destruct (Rlt_dec tol 6); [reflexivity|lra].
  - change (Z.min 2 (Z.of_nat 2) <? 0)%Z with false. change (Z.to_nat (Z.min 2 (Z.of_nat 2))) with 2%nat.
    cbv iota. rewrite pc_loop_iter. cbn [pc_errors map batch_max fold_right]. rewrite A2_err0.
    destruct (Rlt_dec tol 6); [|lra].
    rewrite pc_loop_iter. cbn [pc_errors map batch_max fold_right].
    rewrite (proj2 A2_iter1). destruct (Rlt_dec tol 1); [reflexivity|lra].
Qed.

Lemma A2_states_tol1 :
  pivoted_cholesky_states [A2] 2 2 1 = Ok (1%nat, [pc_iter A2 2 1]).
Proof.
  unfold pivoted_cholesky_states.
  change (map (fun A => pc_init A 2) [A2]) with (map (fun A => pc_iter A 2 O) [A2]).
  change (Z.min 2 (Z.of_nat 2) <? 0)%Z with false. change (Z.to_nat (Z.min 2 (Z.of_nat 2))) with 2%nat.
  cbv iota. rewrite pc_loop_iter.
  cbn [pc_errors map batch_max fold_right]. rewrite A2_err0.
  destruct (Rlt_dec 1 6); [|lra]. rewrite pc_loop_iter.
  cbn [pc_errors map batch_max fold_right]. rewrite (proj2 A2_iter1).
  destruct (Rlt_dec 1 1); [lra|reflexivity].
Qed.

Lemma A2_ones_states :
  pivoted_cholesky_states [A2; ones] 2 2 0 = Ok (2%nat, [pc_iter A2 2 2; pc_iter ones 2 2]).
Proof.
  unfold pivoted_cholesky_states.
  change (map (fun A => pc_init A 2) [A2; ones]) with (map (fun A => pc_iter A 2 O) [A2; ones]).
  change (Z.min 2 (Z.of_nat 2) <? 0)%Z with false. change (Z.to_nat (Z.min 2 (Z.of_nat 2))) with 2%nat.
  cbv iota. rewrite pc_loop_iter.
  cbn [pc_errors map batch_max fold_right]. rewrite A2_err0, ones2_err0.
  destruct (Rlt_dec 0 (Rmax 2 6)) as [|H]; [|unfold Rmax in H; destruct (Rle_dec 2 6); lra].
  rewrite pc_loop_iter.
  cbn [pc_errors map batch_max fold_right]. rewrite (proj2 A2_iter1), ones2_err1.
  destruct (Rlt_dec 0 (Rmax 0 1)) as [|H]; [reflexivity|unfold Rmax in H; destruct (Rle_dec 0 1); lra].
Qed.

Lemma ones2_states :
  pivoted_cholesky_states [ones] 2 2 0 = Ok (1%nat, [pc_iter ones 2 1]).
Proof.
  unfold pivoted_cholesky_states.
  change (map (fun A => pc_init A 2) [ones]) with (map (fun A => pc_iter A 2 O) [ones]).
  change (Z.min 2 (Z.of_nat 2) <? 0)%Z with false. change (Z.to_nat (Z.min 2 (Z.of_nat 2))) with 2%nat.
  cbv iota. rewrite pc_loop_iter.
  cbn [pc_errors map batch_max fold_right]. rewrite ones2_err0.
  destruct (Rlt_dec 0 2); [|lra]. rewrite pc_loop_iter.
  cbn [pc_errors map batch_max fold_right]. rewrite ones2_err1.
  destruct (Rlt_dec 0 0); [lra|reflexivity].
Qed.

Lemma A2_run2 : pivoted_cholesky_states [A2] 2 2 0 = Ok (2%nat, [pc_iter A2 2 2]).
Proof. exact (A2_states 2 0 ltac:(lia) ltac:(lra)). Qed.

Lemma A2_sym : symmetric 2 A2.
Proof. intros a b Ha Hb. destruct a as [|[|a]]; destruct b as [|[|b]]; try lia; reflexivity. Qed.

Lemma A2_psd : psd 2 A2.
Proof. intros x. unfold quad, A2. simpl. nra. Qed.

Lemma pc_pivot_pos A n j :
  symmetric n A -> psd n A -> (j < n)%nat -> 0 < pc_err (pc_iter A n j) ->
  0 < pc_diag (pc_iter A n j) (nth j (pc_perm (pc_iter A n (S j))) O).
Proof.
  intros Hs Hp Hj Herr.
  destruct (pc_iter_inv A n Hs Hp j ltac:(lia)) as [HP [_ [Hdiag [_ [Hpsd Herr']]]]].
  destruct (pc_step_spec A n j (pc_iter A n j) HP Hj) as [idx [Hidx [Hmax [Hperm' _]]]].
  cbv zeta in Hmax, Hperm'. cbn [pc_iter]. rewrite Hperm', (swap_pivot n j idx _ HP Hidx).
  set (st := pc_iter A n j) in *.
  assert (Hnn : forall i, In i (skipn j (pc_perm st)) -> 0 <= Rabs (pc_diag st i))
    by (intros; apply Rabs_pos).
  destruct (Rlt_le_dec 0 (pc_diag st (nth idx (pc_perm st) O))) as [Hpos|Hle]; [exact Hpos|].
  exfalso.
  assert (Hz : lsum (skipn j (pc_perm st)) (fun i => Rabs (pc_diag st i)) <= 0).
  { replace 0 with (lsum (skipn j (pc_perm st)) (fun _ => 0))
      by (clear; induction (skipn j (pc_perm st)); simpl; lra).
    apply lsum_le. intros i Hi.
    assert (Hi' : (i < n)%nat).
    { apply (In_perm_seq n (pc_perm st) i HP). rewrite <- (firstn_skipn j (pc_perm st)). apply in_or_app. right. exact Hi. }
    pose proof (psd_diag n _ i (resid_sym A (pc_L st) n j Hs) Hpsd Hi') as H0.
    rewrite <- Hdiag in H0 by exact Hi. specialize (Hmax i Hi).
    rewrite Rabs_right by lra. lra. }
  rewrite <- Herr' in Hz by exact Hj. lra.
Qed.

(* ------------------------------------------------------------------ *)
(** ** Claims on [pivoted_cholesky] *)

(** C4. For every symmetric positive semi-definite [n x n] matrix [A],
    [pivoted_cholesky(A, max_iter = n, error_tol = 0)] returns a factor [L]
    with [L^T L = A] exactly. The code writes row [m] of [L] at the columns
    [pi_m] and [pi_i], which are indices of [A]; so [L]'s columns are already
    in the original order (undoing the permutation is the identity on them)
    and [sum_r L r a * L r b = A a b] for all [a, b < n]. *)
Theorem pivoted_cholesky_full_rank (A : mat) (n : nat) :
  symmetric n A -> psd n A ->
  exists m L, pivoted_cholesky [A] n (Z.of_nat n) 0 = Ok (m, [L]) /\
    forall a b, (a < n)%nat -> (b < n)%nat -> rsum m (fun r => L r a * L r b) = A a b.
Proof.
  intros Hsym Hpsd.
  pose proof (pc_loop_spec [A] n 0 n O) as Hs.
  unfold pivoted_cholesky, pivoted_cholesky_states.
  rewrite Z.min_id, Nat2Z.id.
  replace (Z.of_nat n <? 0)%Z with false by (symmetry; apply Z.ltb_ge; lia).
  change (map (fun A0 => pc_init A0 n) [A]) with (map (fun A0 => pc_iter A0 n O) [A]).
  destruct (pc_loop [A] n 0 n 0 (map (fun A0 => pc_iter A0 n O) [A])) as [[m sts]|e];
    [|destruct Hs; discriminate].
  destruct Hs as [Hsts [Hm Hstop]]. subst sts. cbn [map].
  exists m, (truncate m (pc_L (pc_iter A n m))). split; [reflexivity|].
  intros a b Ha Hb.
  assert (Hz : resid A (pc_L (pc_iter A n m)) m a b = 0).
  { eapply pc_resid_zero; try eassumption.
    - apply pc_iter_inv; try assumption. lia.
    - destruct Hstop as [Hm'|[e [He Hne]]]; [left; lia|].
      destruct (Nat.eq_dec m n) as [|Hmn]; [left; assumption|right].
      cbn in He. injection He as <-. split; [lia|]. lra. }
  unfold resid in Hz.
  rewrite (rsum_ext m _ (fun r => pc_L (pc_iter A n m) r a * pc_L (pc_iter A n m) r b)).
  - lra.
  - intros r Hr. unfold truncate. replace (Nat.ltb r m) with true
      by (symmetry; apply Nat.ltb_lt; lia). reflexivity.
Qed.

(** Witness of C4 on [A2 = [[2, 2], [2, 4]]]: two iterations, the first
    one pivoting on index 1 and running the update and deflation branch. *)
Lemma pivoted_cholesky_full_rank_witness :
  symmetric 2 A2 /\ psd 2 A2 /\
  pivoted_cholesky [A2] 2 (Z.of_nat 2) 0 = Ok (2%nat, [truncate 2 (pc_L (pc_iter A2 2 2))]) /\
  exists m L, pivoted_cholesky [A2] 2 (Z.of_nat 2) 0 = Ok (m, [L]) /\
    forall a b, (a < 2)%nat -> (b < 2)%nat -> rsum m (fun r => L r a * L r b) = A2 a b.
Proof.
  split; [exact A2_sym|]. split; [exact A2_psd|].
  split; [unfold pivoted_cholesky; change (Z.of_nat 2) with 2%Z; rewrite A2_run2; reflexivity|].
  apply (pivoted_cholesky_full_rank A2 2); [exact A2_sym|exact A2_psd].
Defined.

(** C5 (counterexample). On the [1 x 1] matrix [[-1]] with [max_iter = 1]
    and [error_tol = 0] the only selected diagonal value is [-1], and
    [pivoted_cholesky] still returns a factor: no error is raised. *)
Lemma pivoted_cholesky_negative_pivot_returns :
  pc_diag (pc_iter neg_ones 1 0) (nth 0 (pc_perm (pc_iter neg_ones 1 1)) O) = -1 /\
  pivoted_cholesky [neg_ones] 1 1 0
  = Ok (1%nat, [truncate 1 (pc_L (pc_iter neg_ones 1 1))]).
Proof.
  split; [reflexivity|]. unfold pivoted_cholesky.
  rewrite (pc_run_one neg_ones 1 0); [reflexivity|lia|]. rewrite neg_ones_err0. lra.
Qed.

(** C5 (amended). [pivoted_cholesky] makes no sign check on the selected
    diagonal value: for a non-empty batch and [max_iter >= 0] it always
    returns a factor, and in every iteration [j] the pivot entry of row [j]
    is the square root of the selected value as it is (torch's sqrt, NaN on
    a negative value in floating point). *)
Theorem pivoted_cholesky_no_sign_check As n max_iter tol :
  As <> [] -> (0 <= max_iter)%Z ->
  exists m sts, pivoted_cholesky_states As n max_iter tol = Ok (m, sts) /\
    pivoted_cholesky As n max_iter tol = Ok (m, map (fun st => truncate m (pc_L st)) sts) /\
    forall A j, In A As -> (j < m)%nat ->
      pc_L (pc_iter A n (S j)) j (nth j (pc_perm (pc_iter A n (S j))) O)
      = sqrt (pc_diag (pc_iter A n j) (nth j (pc_perm (pc_iter A n (S j))) O)).
Proof.
  intros Hne Hmi. destruct (pc_states_ok As n max_iter tol Hne Hmi) as [m Hrun].
  exists m, (map (fun A => pc_iter A n m) As). split; [exact Hrun|].
  split; [unfold pivoted_cholesky; rewrite Hrun; reflexivity|].
  destruct (pivoted_cholesky_states_spec _ _ _ _ _ _ Hrun) as [_ [Hm _]].
  intros A j _ Hj. simpl. apply pc_step_pivot_entry; [apply pc_iter_perm|]; lia.
Qed.

Lemma pivoted_cholesky_no_sign_check_witness :
  [neg_ones] <> [] /\ (0 <= 1)%Z /\
  exists m sts, pivoted_cholesky_states [neg_ones] 1 1 0 = Ok (m, sts) /\
    pivoted_cholesky [neg_ones] 1 1 0 = Ok (m, map (fun st => truncate m (pc_L st)) sts) /\
    forall A j, In A [neg_ones] -> (j < m)%nat ->
      pc_L (pc_iter A 1 (S j)) j (nth j (pc_perm (pc_iter A 1 (S j))) O)
      = sqrt (pc_diag (pc_iter A 1 j) (nth j (pc_perm (pc_iter A 1 (S j))) O)).
Proof.
  split; [discriminate|]. split; [lia|].
  apply pivoted_cholesky_no_sign_check; [discriminate|lia].
Defined.

(** C6 (counterexample). With [max_iter = 0] no error is raised:
    [pivoted_cholesky] returns an empty ([0 x n]) factor. *)
Lemma pivoted_cholesky_max_iter_zero_returns :
  pivoted_cholesky [ones] 1 0 0 = Ok (0%nat, [truncate 0 (pc_L (pc_init ones 1))]).
Proof. reflexivity. Qed.

(** C6 (amended). No [InvalidArgumentError] exists: with [max_iter < 0] the
    call fails with torch's negative-dimension error from allocating [L],
    and with [max_iter = 0] it returns the empty factor of every batch
    element. *)
Theorem pivoted_cholesky_nonpositive_max_iter As n tol :
  (forall max_iter, (max_iter < 0)%Z -> pivoted_cholesky As n max_iter tol = Err NegativeDimension) /\
  pivoted_cholesky As n 0 tol = Ok (0%nat, map (fun A => truncate 0 (pc_L (pc_init A n))) As).
Proof.
  split.
  - intros max_iter Hneg. unfold pivoted_cholesky, pivoted_cholesky_states.
    replace (Z.min max_iter (Z.of_nat n) <? 0)%Z with true by (symmetry; apply Z.ltb_lt; lia).
    reflexivity.
  - unfold pivoted_cholesky, pivoted_cholesky_states.
    replace (Z.min 0 (Z.of_nat n)) with 0%Z by lia. simpl. rewrite map_map. reflexivity.
Qed.

Lemma pivoted_cholesky_nonpositive_max_iter_witness :
  pivoted_cholesky [ones] 1 (-1) 0 = Err NegativeDimension.
Proof. apply (proj1 (pivoted_cholesky_nonpositive_max_iter [ones] 1 0)). lia. Defined.

(** C7. In every run, for every batch element, the permutation starts as
    the identity [0..n-1], every iteration [j] exchanges its positions [j]
    and [idx] (the selected maximum, [j <= idx < n]) and nothing else, and
    after each iteration it is a permutation of [0..n-1], i.e. it holds each
    index below [n] exactly once. *)
Theorem pivoted_cholesky_perm_bijection As n max_iter tol m sts :
  pivoted_cholesky_states As n max_iter tol = Ok (m, sts) ->
  sts = map (fun A => pc_iter A n m) As /\
  forall A, In A As ->
    pc_perm (pc_iter A n O) = seq 0 n /\
    (forall j, (j <= m)%nat -> Permutation (seq 0 n) (pc_perm (pc_iter A n j))) /\
    (forall j, (j < m)%nat -> exists idx, (j <= idx < n)%nat /\
       pc_perm (pc_iter A n (S j))
       = set_nth (set_nth (pc_perm (pc_iter A n j)) j (nth idx (pc_perm (pc_iter A n j)) O))
                 idx (nth j (pc_perm (pc_iter A n j)) O)).
Proof.
  intros Hrun. destruct (pivoted_cholesky_states_spec _ _ _ _ _ _ Hrun) as [Hsts [Hm _]].
  split; [exact Hsts|]. intros A _. split; [reflexivity|]. split.
  - intros j Hj. apply pc_iter_perm. lia.
  - intros j Hj. simpl. apply pc_step_perm; [apply pc_iter_perm|]; lia.
Qed.

Lemma pivoted_cholesky_perm_bijection_witness :
  pivoted_cholesky_states [A2] 2 2 0 = Ok (2%nat, [pc_iter A2 2 2]) /\
  pc_perm (pc_iter A2 2 1) = [1%nat; 0%nat] /\
  [pc_iter A2 2 2] = map (fun A => pc_iter A 2 2) [A2] /\
  forall A, In A [A2] ->
    pc_perm (pc_iter A 2 O) = seq 0 2 /\
    (forall j, (j <= 2)%nat -> Permutation (seq 0 2) (pc_perm (pc_iter A 2 j))) /\
    (forall j, (j < 2)%nat -> exists idx, (j <= idx < 2)%nat /\
       pc_perm (pc_iter A 2 (S j))
       = set_nth (set_nth (pc_perm (pc_iter A 2 j)) j (nth idx (pc_perm (pc_iter A 2 j)) O))
                 idx (nth j (pc_perm (pc_iter A 2 j)) O)).
Proof.
  split; [exact A2_run2|]. split; [exact (proj1 A2_iter1)|].
  apply (pivoted_cholesky_perm_bijection [A2] 2 2 0). exact A2_run2.
Defined.

(** C8 (counterexample). On the symmetric indefinite matrix [[1, 2], [2, -1]]
    with [max_iter = 2] and [error_tol = 0] the loop runs two iterations and
    the error goes from [|1| + |-1| = 2] to [|-1 - 2^2| = 5]: it increases. *)
Lemma pivoted_cholesky_errors_increase_indef :
  pivoted_cholesky_states [indef2] 2 2 0 = Ok (2%nat, [pc_iter indef2 2 2]) /\
  pc_err (pc_iter indef2 2 0) = 2 /\ pc_err (pc_iter indef2 2 1) = 5.
Proof.
  split; [|split; [exact indef2_err0|exact indef2_err1]].
  pose proof (pc_loop_spec [indef2] 2 0 2 O) as Hs.
  unfold pivoted_cholesky_states. change (Z.min 2 (Z.of_nat 2) <? 0)%Z with false.
  change (Z.to_nat (Z.min 2 (Z.of_nat 2))) with 2%nat.
  change (map (fun A => pc_init A 2) [indef2]) with (map (fun A => pc_iter A 2 O) [indef2]).
  destruct (pc_loop [indef2] 2 0 2 0 (map (fun A => pc_iter A 2 O) [indef2])) as [[m sts]|e];
    [|destruct Hs; discriminate].
  destruct Hs as [-> [Hm Hstop]].
  destruct Hstop as [->|[e [He Hne]]]; [reflexivity|]. cbn in He.
  injection He as <-. assert (m = 0 \/ m = 1 \/ m = 2)%nat as [->|[->| ->]] by lia.
  - rewrite indef2_err0 in Hne. lra.
  - rewrite indef2_err1 in Hne. lra.
  - reflexivity.
Qed.

(** C8 (amended). For a single symmetric positive semi-definite input and
    [error_tol >= 0], in every iteration [j] of a run the selected pivot
    value is positive (so the loop never takes the square root of a
    negative value nor divides by zero), and the error (the L1 norm of the
    unpivoted diagonal residual) does not increase from one iteration to
    the next. *)
Theorem pivoted_cholesky_errors_nonincreasing_psd A n max_iter tol m sts :
  pivoted_cholesky_states [A] n max_iter tol = Ok (m, sts) -> 0 <= tol ->
  symmetric n A -> psd n A ->
  sts = [pc_iter A n m] /\
  forall j, (j < m)%nat ->
    0 < pc_diag (pc_iter A n j) (nth j (pc_perm (pc_iter A n (S j))) O) /\
    pc_err (pc_iter A n (S j)) <= pc_err (pc_iter A n j).
Proof.
  intros Hrun Htol Hsym Hpsd.
  destruct (pc_states_char _ _ _ _ _ _ Hrun) as [Hsts [_ [_ [Hm [Hruns _]]]]].
  split; [exact Hsts|]. intros j Hj.
  destruct (Hruns j Hj) as [e [He Hlt]]. rewrite pc_errors_single in He. injection He as <-.
  split.
  - apply pc_pivot_pos; [exact Hsym|exact Hpsd|lia|lra].
  - apply pc_err_iter_step; [exact Hsym|exact Hpsd|lia].
Qed.

Lemma pivoted_cholesky_errors_nonincreasing_psd_witness :
  pivoted_cholesky_states [A2] 2 2 0 = Ok (2%nat, [pc_iter A2 2 2]) /\ 0 <= 0 /\
  symmetric 2 A2 /\ psd 2 A2 /\
  pc_err (pc_iter A2 2 0) = 6 /\ pc_err (pc_iter A2 2 1) = 1 /\
  [pc_iter A2 2 2] = [pc_iter A2 2 2] /\
  forall j, (j < 2)%nat ->
    0 < pc_diag (pc_iter A2 2 j) (nth j (pc_perm (pc_iter A2 2 (S j))) O) /\
    pc_err (pc_iter A2 2 (S j)) <= pc_err (pc_iter A2 2 j).
Proof.
  split; [exact A2_run2|]. split; [lra|]. split; [exact A2_sym|]. split; [exact A2_psd|].
  split; [exact A2_err0|]. split; [exact (proj2 A2_iter1)|].
  exact (pivoted_cholesky_errors_nonincreasing_psd A2 2 2 0 2 _ A2_run2 (Rle_refl 0) A2_sym A2_psd).
Defined.

(** C9. In every iteration [j] of a run, the working diagonal changes only
    at the indices stored at permutation positions [j+1 .. n-1] (after the
    swap); at the indices stored at positions [<= j] it is unchanged. *)
Theorem pivoted_cholesky_deflation_frame As n max_iter tol m sts :
  pivoted_cholesky_states As n max_iter tol = Ok (m, sts) ->
  sts = map (fun A => pc_iter A n m) As /\
  forall A, In A As -> forall j, (j < m)%nat ->
    (forall i, ~ In i (skipn (S j) (pc_perm (pc_iter A n (S j)))) ->
       pc_diag (pc_iter A n (S j)) i = pc_diag (pc_iter A n j) i) /\
    (forall q, (q <= j)%nat ->
       pc_diag (pc_iter A n (S j)) (nth q (pc_perm (pc_iter A n (S j))) O)
       = pc_diag (pc_iter A n j) (nth q (pc_perm (pc_iter A n (S j))) O)).
Proof.
  intros Hrun. destruct (pivoted_cholesky_states_spec _ _ _ _ _ _ Hrun) as [Hsts [Hm _]].
  split; [exact Hsts|]. intros A _ j Hj.
  assert (Hframe : forall i, ~ In i (skipn (S j) (pc_perm (pc_iter A n (S j)))) ->
            pc_diag (pc_iter A n (S j)) i = pc_diag (pc_iter A n j) i).
  { simpl. apply pc_step_frame; [apply pc_iter_perm|]; lia. }
  split; [exact Hframe|]. intros q Hq. apply Hframe.
  set (P' := pc_perm (pc_iter A n (S j))).
  assert (HP' : Permutation (seq 0 n) P') by (apply pc_iter_perm; lia).
  assert (Hnd : NoDup (firstn (S j) P' ++ skipn (S j) P'))
    by (rewrite firstn_skipn; exact (NoDup_perm_seq n P' HP')).
  apply (NoDup_app_disjoint _ _ _ Hnd).
  replace (nth q P' O) with (nth q (firstn (S j) P') O).
  - apply nth_In. rewrite length_firstn, (length_perm n P' HP'). lia.
  - rewrite nth_firstn. replace (q <? S j)%nat with true by (symmetry; apply Nat.ltb_lt; lia).
    reflexivity.
Qed.

Lemma pivoted_cholesky_deflation_frame_witness :
  pivoted_cholesky_states [A2] 2 2 0 = Ok (2%nat, [pc_iter A2 2 2]) /\
  [pc_iter A2 2 2] = map (fun A => pc_iter A 2 2) [A2] /\
  forall A, In A [A2] -> forall j, (j < 2)%nat ->
    (forall i, ~ In i (skipn (S j) (pc_perm (pc_iter A 2 (S j)))) ->
       pc_diag (pc_iter A 2 (S j)) i = pc_diag (pc_iter A 2 j) i) /\
    (forall q, (q <= j)%nat ->
       pc_diag (pc_iter A 2 (S j)) (nth q (pc_perm (pc_iter A 2 (S j))) O)
       = pc_diag (pc_iter A 2 j) (nth q (pc_perm (pc_iter A 2 (S j))) O)).
Proof.
  split; [exact A2_run2|].
  apply (pivoted_cholesky_deflation_frame [A2] 2 2 0). exact A2_run2.
Defined.

(* ------------------------------------------------------------------ *)
(** ** [torch.cholesky] and [torch.potrs] *)

Lemma pd_from_ext j n S S' :
  (forall a b, (a < n)%nat -> (b < n)%nat -> S a b = S' a b) -> pd_from j n S -> pd_from j n S'.
Proof.
  intros HS Hpd x Hlow Hnz. rewrite <- (quad_ext n S S' x x); [apply Hpd; assumption|exact HS|reflexivity].
Qed.

Lemma chol_inv_init k M : symmetric k M -> posdef k M -> chol_inv k M O M (fun _ _ => 0).
Proof.
  intros Hsym Hpd. unfold chol_inv. split; [intros; simpl; ring|].
  split; [exact Hsym|]. split; [intros x _ Hnz; apply Hpd; exact Hnz|].
  split; [intros; lia|]. split; [reflexivity|]. split; [reflexivity|]. intros; lia.
Qed.

Lemma chol_inv_step k M j S L :
  (j < k)%nat -> chol_inv k M j S L ->
  let d := sqrt (S j j) in
  let col := fun i => if (Nat.leb j i && Nat.ltb i k)%bool then S i j / d else 0 in
  chol_inv k M (Datatypes.S j) (fun a b => S a b - col a * col b)
    (fun i c => if Nat.eqb c j then col i else L i c).
Proof.
  intros Hj [H1 [H2 [H3 [H4 [H5 [H6 H7]]]]]] d col.
  assert (Hpos : 0 < S j j).
  { rewrite <- (quad_basis k S j) by assumption. apply H3.
    - intros a Ha. unfold basis. destruct (Nat.eqb_spec a j); [lia|reflexivity].
    - exists j. split; [exact Hj|]. unfold basis. rewrite Nat.eqb_refl. lra. }
  assert (Hd : 0 < d) by (apply sqrt_lt_R0; exact Hpos).
  assert (Hdd : S j j / d = d) by (unfold d; apply sqrt_div_self; lra).
  assert (Hcol : forall i, (i < k)%nat -> col i = S j i / d).
  { intros i Hi. unfold col. destruct (Nat.leb_spec j i) as [Hji|Hji]; simpl.
    - replace (Nat.ltb i k) with true by (symmetry; apply Nat.ltb_lt; exact Hi).
      rewrite H2 by assumption. reflexivity.
    - rewrite H2, H4 by lia. unfold Rdiv. ring. }
  assert (Hcol0 : forall i, (i < j)%nat -> col i = 0).
  { intros i Hi. unfold col. replace (Nat.leb j i) with false
      by (symmetry; apply Nat.leb_gt; exact Hi). reflexivity. }
  unfold chol_inv. split; [|split; [|split; [|split; [|split; [|split]]]]].
  - intros a b Ha Hb. rewrite rsum_S, !Nat.eqb_refl.
    rewrite (rsum_ext j _ (fun c => L a c * L b c)).
    + rewrite H1 by assumption. ring.
    + intros c Hc. replace (Nat.eqb c j) with false by (symmetry; apply Nat.eqb_neq; lia).
      reflexivity.
  - intros a b Ha Hb. cbv beta. rewrite H2 by assumption. ring.
  - apply (pd_from_ext _ k (fun a b => S a b - S j a / sqrt (S j j) * (S j b / sqrt (S j j)))).
    + intros a b Ha Hb. rewrite !Hcol by assumption. reflexivity.
    + apply (schur_pd k j S Hj H2 H3).
  - intros a b Ha Hb. cbv beta. destruct (Nat.eq_dec a j) as [->|Hne].
    + rewrite !Hcol by assumption. rewrite Hdd. field. lra.
    + rewrite Hcol0, H4 by lia. ring.
  - intros i c Hc. replace (Nat.eqb c j) with false by (symmetry; apply Nat.eqb_neq; lia).
    apply H5. lia.
  - intros i c Hic. destruct (Nat.eqb_spec c j) as [->|Hne]; [apply Hcol0; exact Hic|].
    apply H6. exact Hic.
  - intros c Hc. destruct (Nat.eqb_spec c j) as [->|Hne].
    + rewrite Hcol by exact Hj. rewrite Hdd. exact Hd.
    + apply H7. lia.
Qed.

Lemma chol_steps_inv k M fuel j S L :
  (j + fuel = k)%nat -> chol_inv k M j S L ->
  exists S', chol_inv k M k S' (chol_steps k fuel j S L).
Proof.
  revert j S L. induction fuel as [|fuel IH]; intros j S L Hjf Hinv.
  - simpl. exists S. replace j with k in Hinv by lia. exact Hinv.
  - simpl. apply IH; [lia|]. apply (chol_inv_step k M j S L); [lia|exact Hinv].
Qed.

(** [torch.cholesky] of a symmetric positive definite matrix: [M = L L^t],
    [L] lower triangular with a positive diagonal. *)
Lemma torch_cholesky_spec k M :
  symmetric k M -> posdef k M ->
  (forall a b, (a < k)%nat -> (b < k)%nat ->
     rsum k (fun c => torch_cholesky k M a c * torch_cholesky k M b c) = M a b) /\
  (forall i c, (i < c)%nat -> torch_cholesky k M i c = 0) /\
  (forall c, (c < k)%nat -> 0 < torch_cholesky k M c c).
Proof.
  intros Hsym Hpd.
  destruct (chol_steps_inv k M k O M (fun _ _ => 0) eq_refl (chol_inv_init k M Hsym Hpd))
    as [S' [H1 [_ [_ [H4 [_ [H6 H7]]]]]]].
  unfold torch_cholesky. split; [|split; [exact H6|exact H7]].
  intros a b Ha Hb. pose proof (H1 a b Ha Hb) as E. rewrite (H4 a b Ha Hb) in E. lra.
Qed.

Lemma rsum_trunc n m f :
  (m <= n)%nat -> (forall i, (m <= i < n)%nat -> f i = 0) -> rsum n f = rsum m f.
Proof.
  induction n as [|n IH]; intros Hmn Hz.
  - replace m with O by lia. reflexivity.
  - destruct (Nat.eq_dec m (S n)) as [->|Hne]; [reflexivity|].
    simpl. rewrite (Hz n) by lia. rewrite IH by (try lia; intros; apply Hz; lia). ring.
Qed.

Lemma fwd_sub_stable L b i t :
  (t < i)%nat ->
  fwd_sub L b i t = (b t - rsum t (fun j => L t j * fwd_sub L b t j)) / L t t.
Proof.
  induction i as [|i IH]; intros Ht; [lia|]. simpl.
  destruct (Nat.eqb_spec t i) as [->|Hne]; [reflexivity|]. apply IH. lia.
Qed.

Lemma fwd_sub_eq L b i t :
  (t < i)%nat ->
  fwd_sub L b i t = (b t - rsum t (fun j => L t j * fwd_sub L b i j)) / L t t.
Proof.
  intros Ht. rewrite fwd_sub_stable by exact Ht. f_equal. f_equal. apply rsum_ext.
  intros j Hj. rewrite (fwd_sub_stable L b t j), (fwd_sub_stable L b i j) by lia. reflexivity.
Qed.

(** Forward substitution solves [L y = b]. *)
Lemma fwd_sub_solves k L b :
  (forall i c, (i < c)%nat -> L i c = 0) -> (forall c, (c < k)%nat -> L c c <> 0) ->
  forall t, (t < k)%nat -> rsum k (fun j => L t j * fwd_sub L b k j) = b t.
Proof.
  intros Hlow Hd t Ht.
  rewrite (rsum_trunc k (S t)) by (try lia; intros j Hj; rewrite Hlow by lia; ring).
  rewrite rsum_S, (fwd_sub_eq L b k t Ht). field. apply Hd. exact Ht.
Qed.

Lemma bwd_sub_stable k L y t s :
  (t <= k)%nat -> (k - t <= s)%nat -> (s < k)%nat ->
  bwd_sub k L y t s
  = (y s - rsum k (fun j => if Nat.ltb s j then L j s * bwd_sub k L y (k - S s) j else 0))
    / L s s.
Proof.
  induction t as [|t IH]; intros Htk Hs Hsk; [lia|]. simpl.
  destruct (Nat.eqb_spec s (k - S t)) as [Heq|Hne].
  - rewrite <- Heq. replace (k - S s)%nat with t by lia. reflexivity.
  - apply IH; lia.
Qed.

Lemma bwd_sub_eq k L y s :
  (s < k)%nat ->
  bwd_sub k L y k s
  = (y s - rsum k (fun j => if Nat.ltb s j then L j s * bwd_sub k L y k j else 0)) / L s s.
Proof.
  intros Hs. rewrite bwd_sub_stable by lia. f_equal. f_equal. apply rsum_ext.
  intros j Hj. destruct (Nat.ltb_spec s j) as [Hsj|]; [|reflexivity].
  rewrite (bwd_sub_stable k L y (k - S s) j), (bwd_sub_stable k L y k j) by lia.
  reflexivity.
Qed.

(** Back substitution solves [L^t x = y]. *)
Lemma bwd_sub_solves k L y :
  (forall i c, (i < c)%nat -> L i c = 0) -> (forall c, (c < k)%nat -> L c c <> 0) ->
  forall s, (s < k)%nat -> rsum k (fun j => L j s * bwd_sub k L y k j) = y s.
Proof.
  intros Hlow Hd s Hs.
  rewrite (rsum_ext k _ (fun j => (if Nat.ltb s j then L j s * bwd_sub k L y k j else 0)
                                  + (if Nat.eqb j s then L s s * bwd_sub k L y k s else 0))).
  2:{ intros j Hj. destruct (Nat.ltb_spec s j), (Nat.eqb_spec j s); subst; try lia; try ring.
      rewrite Hlow by lia. ring. }
  rewrite rsum_plus, (rsum_eqb k s (fun _ => L s s * bwd_sub k L y k s) Hs).
  rewrite (bwd_sub_eq k L y s Hs). field. apply Hd. exact Hs.
Qed.

(** [torch.potrs(B, chol, upper=False)] solves [M X = B] when [M = chol chol^t]
    with [chol] lower triangular with a non-zero diagonal. *)
Lemma torch_potrs_spec k M B chol :
  (forall a b, (a < k)%nat -> (b < k)%nat -> rsum k (fun c => chol a c * chol b c) = M a b) ->
  (forall i c, (i < c)%nat -> chol i c = 0) -> (forall c, (c < k)%nat -> chol c c <> 0) ->
  forall r c, (r < k)%nat -> matmul k M (torch_potrs k B chol) r c = B r c.
Proof.
  intros HM Hlow Hd r c Hr. unfold matmul, torch_potrs.
  set (y := fwd_sub chol (fun r0 => B r0 c) k).
  rewrite (rsum_ext k _ (fun b => rsum k (fun a => chol r a * (chol b a * bwd_sub k chol y k b)))).
  2:{ intros b Hb. rewrite <- HM by assumption. rewrite <- rsum_scal_r. apply rsum_ext.
      intros; ring. }
  rewrite rsum_swap.
  rewrite (rsum_ext k _ (fun a => chol r a * y a)).
  2:{ intros a Ha. rewrite rsum_scal_l. f_equal. apply bwd_sub_solves; assumption. }
  apply (fwd_sub_solves k chol (fun r0 => B r0 c)); assumption.
Qed.

(* ------------------------------------------------------------------ *)
(** ** [woodbury_factor] *)

(** The [shifted_mat] built by [woodbury_factor]. *)
Lemma woodbury_factor_unfold k n V shift :
  woodbury_factor k n V shift
  = torch_potrs k V (torch_cholesky k
      (fun a c => matmul n V (fun j a0 => reciprocal shift j / abs_max n (reciprocal shift)
                                          * transpose V j a0) a c
                  + eye a c / abs_max n (reciprocal shift))).
Proof. reflexivity. Qed.

Lemma abs_max_spec_scale n shift : abs_max n (reciprocal shift) = spec_scale n shift.
Proof.
  unfold abs_max, spec_scale, reciprocal. f_equal. apply map_ext. intros i.
  unfold Rdiv. rewrite Rmult_1_l. reflexivity.
Qed.

Lemma woodbury_shifted_mat k n V shift a c :
  matmul n V (fun j a0 => reciprocal shift j / abs_max n (reciprocal shift)
                          * transpose V j a0) a c
  + eye a c / abs_max n (reciprocal shift)
  = spec_M k n V shift a c.
Proof.
  rewrite abs_max_spec_scale. unfold spec_M, matmul, transpose, reciprocal. f_equal.
  apply rsum_ext. intros j Hj.
  rewrite (rsum_ext n _ (fun i => if Nat.eqb i j then V a i * (1 / shift i / spec_scale n shift)
                                  else 0)).
  - rewrite rsum_eqb by exact Hj. unfold Rdiv. ring.
  - intros i _. destruct (Nat.eqb i j); ring.
Qed.

Lemma woodbury_shifted_mat_sym k n V shift :
  symmetric k (fun a c => matmul n V (fun j a0 => reciprocal shift j / abs_max n (reciprocal shift)
                                                    * transpose V j a0) a c
                          + eye a c / abs_max n (reciprocal shift)).
Proof.
  intros a b _ _. unfold matmul, transpose, eye. rewrite Nat.eqb_sym. f_equal.
  apply rsum_ext. intros; ring.
Qed.

(** [woodbury_factor] returns [R] with [M R = V] when [M] is positive
    definite. *)
Lemma woodbury_factor_spec k n V shift :
  posdef k (spec_M k n V shift) ->
  forall a c, (a < k)%nat ->
    matmul k (spec_M k n V shift) (woodbury_factor k n V shift) a c = V a c.
Proof.
  intros Hpd a c Ha. rewrite woodbury_factor_unfold.
  set (Mc := fun a c => matmul n V (fun j a0 => reciprocal shift j / abs_max n (reciprocal shift)
                                                 * transpose V j a0) a c
                        + eye a c / abs_max n (reciprocal shift)).
  assert (HMc : forall a c, Mc a c = spec_M k n V shift a c)
    by (intros; apply woodbury_shifted_mat).
  assert (Hsym : symmetric k Mc) by apply woodbury_shifted_mat_sym.
  assert (Hpdc : posdef k Mc).
  { intros x Hx. rewrite (quad_ext k Mc (spec_M k n V shift) x x);
      [apply Hpd; exact Hx|intros; apply HMc|reflexivity]. }
  destruct (torch_cholesky_spec k Mc Hsym Hpdc) as [H1 [H2 H3]].
  unfold matmul at 1. rewrite (rsum_ext k _ (fun b => Mc a b * torch_potrs k V (torch_cholesky k Mc) b c))
    by (intros; rewrite HMc; reflexivity).
  apply (torch_potrs_spec k Mc V (torch_cholesky k Mc)); try assumption.
  intros c0 Hc0. specialize (H3 c0 Hc0). lra.
Qed.

(* ------------------------------------------------------------------ *)
(** ** [woodbury_solve] *)

Lemma fold_Rmax_ge l x : In x l -> x <= fold_right Rmax 0 l.
Proof.
  induction l as [|y l IH]; intros Hx; [destruct Hx|]. simpl.
  destruct Hx as [<-|Hx]; [apply Rmax_l|].
  eapply Rle_trans; [apply IH; exact Hx|apply Rmax_r].
Qed.

Lemma abs_max_pos n shift i :
  (i < n)%nat -> shift i <> 0 -> 0 < abs_max n (reciprocal shift).
Proof.
  intros Hi Hsh. unfold abs_max.
  assert (H0 : 0 < Rabs (reciprocal shift i))
    by (apply Rabs_pos_lt; unfold reciprocal; apply Rinv_neq_0_compat; exact Hsh).
  eapply Rlt_le_trans; [exact H0|]. apply fold_Rmax_ge.
  apply (in_map (fun i0 => Rabs (reciprocal shift i0))). apply in_seq. lia.
Qed.

(** The Woodbury identity behind [woodbury_solve]: with [M Rf = V] and
    [M = V diag(inv) V^t + I / s], the vector
    [x = s (inv * b - inv * (V^t Rf (inv * b)))] solves
    [(diag(shift) + V^t V) x = b] when [shift * inv * s = 1]. *)
Lemma woodbury_algebra k n (V Rf Mm : mat) (shift inv : vec) (s : R) (b : vec) :
  s <> 0 -> (forall j, (j < n)%nat -> shift j * inv j * s = 1) ->
  (forall a a', Mm a a' = rsum n (fun j => V a j * (inv j * V a' j)) + eye a a' / s) ->
  (forall a c, (a < k)%nat -> (c < n)%nat -> rsum k (fun a' => Mm a a' * Rf a' c) = V a c) ->
  forall i, (i < n)%nat ->
  rsum n (fun j => ((if Nat.eqb i j then shift i else 0) + rsum k (fun a => V a i * V a j)) *
     ((inv j * b j - inv j * rsum n (fun c => rsum k (fun a => V a j * Rf a c) * (inv c * b c)))
      * s))
  = b i.
Proof.
  intros Hs Hinv HM HMR i Hi.
  set (w := fun a => rsum n (fun c => Rf a c * (inv c * b c))).
  assert (Hprod : forall j, rsum n (fun c => rsum k (fun a => V a j * Rf a c) * (inv c * b c))
                          = rsum k (fun a => V a j * w a)).
  { intros j. unfold w.
    rewrite (rsum_ext n _ (fun c => rsum k (fun a => V a j * (Rf a c * (inv c * b c))))).
    2:{ intros c _. rewrite <- rsum_scal_r. apply rsum_ext. intros; ring. }
    rewrite rsum_swap. apply rsum_ext. intros a _. rewrite rsum_scal_l. reflexivity. }
  assert (Hkey : forall a, (a < k)%nat ->
            rsum n (fun j => V a j * ((inv j * b j - inv j * rsum k (fun a' => V a' j * w a')) * s))
            = w a).
  { intros a Ha.
    rewrite (rsum_ext n _ (fun j => s * (V a j * (inv j * b j))
                                    - s * rsum k (fun a' => V a j * (inv j * V a' j) * w a'))).
    2:{ intros j _.
        rewrite (rsum_ext k (fun a' => V a j * (inv j * V a' j) * w a')
                   (fun a' => (V a j * inv j) * (V a' j * w a'))) by (intros; ring).
        rewrite rsum_scal_l. ring. }
    rewrite rsum_minus, !rsum_scal_l.
    assert (T1 : rsum n (fun j => V a j * (inv j * b j)) = rsum k (fun a' => Mm a a' * w a')).
    { rewrite (rsum_ext n _ (fun j => rsum k (fun a' => Mm a a' * (Rf a' j * (inv j * b j))))).
      2:{ intros j Hj. rewrite <- (HMR a j Ha Hj), <- rsum_scal_r. apply rsum_ext.
          intros; ring. }
      rewrite rsum_swap. apply rsum_ext. intros a' _. unfold w. rewrite rsum_scal_l.
      reflexivity. }
    assert (T2 : rsum n (fun j => rsum k (fun a' => V a j * (inv j * V a' j) * w a'))
                 = rsum k (fun a' => (Mm a a' - eye a a' / s) * w a')).
    { rewrite rsum_swap. apply rsum_ext. intros a' _. rewrite HM, rsum_scal_r. ring. }
    rewrite T1, T2, <- Rmult_minus_distr_l, <- rsum_minus.
    rewrite (rsum_ext k _ (fun a' => if Nat.eqb a' a then w a' / s else 0)).
    - rewrite rsum_eqb by exact Ha. field. exact Hs.
    - intros a' _. cbv beta. unfold eye. rewrite Nat.eqb_sym.
      destruct (Nat.eqb a' a); [field; exact Hs|]. unfold Rdiv. rewrite Rmult_0_l, Rminus_0_r. apply Rminus_diag. }
  rewrite (rsum_ext n _
    (fun j => (if Nat.eqb j i then
                 shift j * ((inv j * b j - inv j * rsum k (fun a => V a j * w a)) * s) else 0)
              + rsum k (fun a => V a i * (V a j *
                  ((inv j * b j - inv j * rsum k (fun a' => V a' j * w a')) * s))))).
  2:{ intros j _. rewrite Hprod, Rmult_plus_distr_r. f_equal.
      - rewrite Nat.eqb_sym. destruct (Nat.eqb_spec j i) as [->|]; ring.
      - rewrite <- rsum_scal_r. apply rsum_ext. intros; ring. }
  rewrite rsum_plus, rsum_eqb by exact Hi. rewrite rsum_swap.
  rewrite (rsum_ext k (fun a => rsum n (fun j => V a i * (V a j *
              ((inv j * b j - inv j * rsum k (fun a' => V a' j * w a')) * s))))
              (fun a => V a i * w a)).
  2:{ intros a Ha. rewrite rsum_scal_l, Hkey by exact Ha. reflexivity. }
  replace (shift i * ((inv i * b i - inv i * rsum k (fun a => V a i * w a)) * s))
    with ((shift i * inv i * s) * (b i - rsum k (fun a => V a i * w a))) by ring.
  rewrite Hinv by exact Hi. ring.
Qed.

(** [woodbury_solve] with the factor of [woodbury_factor] solves the dense
    system. *)
Lemma woodbury_solve_spec k n V shift b :
  (forall i, (i < n)%nat -> shift i <> 0) -> posdef k (spec_M k n V shift) ->
  forall i q, (i < n)%nat ->
    dense_apply k n V shift (woodbury_solve k n b V (woodbury_factor k n V shift) shift) i q
    = b i q.
Proof.
  intros Hsh Hpd i q Hi.
  pose proof (abs_max_pos n shift i Hi (Hsh i Hi)) as Hs.
  unfold dense_apply, woodbury_solve, matmul, transpose.
  apply (woodbury_algebra k n V (woodbury_factor k n V shift) (spec_M k n V shift) shift
           (fun j => reciprocal shift j / abs_max n (reciprocal shift))
           (abs_max n (reciprocal shift)) (fun j => b j q)).
  - lra.
  - intros j Hj. cbv beta. unfold reciprocal.
    assert (Hsj : shift j <> 0) by (apply Hsh; exact Hj). field. split; [exact Hsj|apply Rgt_not_eq; exact Hs].
  - intros a a'. rewrite <- (woodbury_shifted_mat k n V shift a a'). reflexivity.
  - intros a c Ha _. apply woodbury_factor_spec; assumption.
  - exact Hi.
Qed.

Lemma shift3_nonzero : forall i, (i < 3)%nat -> shift3 i <> 0.
Proof. intros i _. unfold shift3. lra. Qed.

Lemma spec_scale_shift3 : spec_scale 3 shift3 = 1.
Proof.
  unfold spec_scale, shift3. simpl. unfold Rdiv. rewrite Rinv_1, Rmult_1_l, Rabs_R1.
  unfold Rmax. repeat destruct Rle_dec; lra.
Qed.

Lemma spec_M_V3 a b :
  (a < 2)%nat -> (b < 2)%nat -> spec_M 2 3 V3 shift3 a b = if Nat.eqb a b then 2 else 0.
Proof.
  intros Ha Hb. unfold spec_M. rewrite spec_scale_shift3.
  unfold matmul, transpose, eye, V3, shift3.
  destruct a as [|[|a]]; destruct b as [|[|b]]; try lia; simpl;
    unfold Rdiv; rewrite ?Rinv_1; ring.
Qed.

Lemma spec_M_V3_pd : posdef 2 (spec_M 2 3 V3 shift3).
Proof.
  intros x [a [Ha Hxa]].
  rewrite (quad_ext 2 _ (fun a b => if Nat.eqb a b then 2 else 0) x x)
    by (intros; try apply spec_M_V3; auto).
  unfold quad. simpl.
  assert (0 < x 0%nat * x 0%nat \/ 0 < x 1%nat * x 1%nat) as Hpos.
  { destruct a as [|[|a]]; [left|right|lia]; apply Rsqr_pos_lt in Hxa; exact Hxa. }
  pose proof (Rle_0_sqr (x 0%nat)). pose proof (Rle_0_sqr (x 1%nat)). unfold Rsqr in *.
  destruct Hpos; nra.
Qed.

(** C1. For every [k x n] matrix [V], every shift with non-zero entries and
    every right-hand side [b]: if [M = V diag(inv_shift) V^t + I_k / scale]
    is positive definite, then
    [x = woodbury_solve(b, V, woodbury_factor(V, shift), shift)] satisfies
    [(diag(shift) + V^t V) x = b], column by column. *)
Theorem woodbury_solve_correct k n V shift b :
  (forall i, (i < n)%nat -> shift i <> 0) -> posdef k (spec_M k n V shift) ->
  forall i q, (i < n)%nat ->
    dense_apply k n V shift (woodbury_solve k n b V (woodbury_factor k n V shift) shift) i q
    = b i q.
Proof. exact (woodbury_solve_spec k n V shift b). Qed.

Lemma woodbury_solve_correct_witness :
  (forall i, (i < 3)%nat -> shift3 i <> 0) /\ posdef 2 (spec_M 2 3 V3 shift3) /\
  dense_apply 2 3 V3 shift3
    (woodbury_solve 2 3 b3 V3 (woodbury_factor 2 3 V3 shift3) shift3) 0%nat 0%nat = b3 0%nat 0%nat.
Proof.
  split; [exact shift3_nonzero|]. split; [exact spec_M_V3_pd|].
  apply (woodbury_solve_correct 2 3 V3 shift3 b3 shift3_nonzero spec_M_V3_pd). lia.
Defined.

(** C2. For every [k x n] matrix [V] and every shift with non-zero entries
    such that [M = V diag(inv_shift) V^t + I_k / scale] is positive
    definite, [R = woodbury_factor(V, shift)] satisfies [M R = V]. *)
Theorem woodbury_factor_correct k n V shift :
  (forall i, (i < n)%nat -> shift i <> 0) -> posdef k (spec_M k n V shift) ->
  forall a c, (a < k)%nat -> (c < n)%nat ->
    matmul k (spec_M k n V shift) (woodbury_factor k n V shift) a c = V a c.
Proof. intros _ Hpd a c Ha _. apply woodbury_factor_spec; assumption. Qed.

Lemma woodbury_factor_correct_witness :
  (forall i, (i < 3)%nat -> shift3 i <> 0) /\ posdef 2 (spec_M 2 3 V3 shift3) /\
  matmul 2 (spec_M 2 3 V3 shift3) (woodbury_factor 2 3 V3 shift3) 1%nat 1%nat = V3 1%nat 1%nat.
Proof.
  split; [exact shift3_nonzero|]. split; [exact spec_M_V3_pd|].
  apply (woodbury_factor_correct 2 3 V3 shift3 shift3_nonzero spec_M_V3_pd); lia.
Defined.

(** C3. For [V = [[1, 0, 0], [0, 1, 0]]], [shift = [1, 1, 1]] and
    [b = [2, 2, 1]], [woodbury_solve(b, V, woodbury_factor(V, shift), shift)]
    is exactly [[1, 1, 1]]. *)
Theorem woodbury_solve_example :
  woodbury_solve 2 3 b3 V3 (woodbury_factor 2 3 V3 shift3) shift3 0%nat 0%nat = 1 /\
  woodbury_solve 2 3 b3 V3 (woodbury_factor 2 3 V3 shift3) shift3 1%nat 0%nat = 1 /\
  woodbury_solve 2 3 b3 V3 (woodbury_factor 2 3 V3 shift3) shift3 2%nat 0%nat = 1.
Proof.
  pose proof (woodbury_solve_spec 2 3 V3 shift3 b3 shift3_nonzero spec_M_V3_pd) as H.
  set (x := woodbury_solve 2 3 b3 V3 (woodbury_factor 2 3 V3 shift3) shift3) in *.
  clearbody x.
  pose proof (H 0%nat 0%nat ltac:(lia)) as H0.
  pose proof (H 1%nat 0%nat ltac:(lia)) as H1.
  pose proof (H 2%nat 0%nat ltac:(lia)) as H2.
  unfold dense_apply, matmul, transpose, V3, shift3, b3 in H0, H1, H2.
  simpl in H0, H1, H2. lra.
Qed.

(* ------------------------------------------------------------------ *)
(** ** The store programs of [woodbury_factor] and [woodbury_solve] *)

Import TensorStore.

Lemma frame_ret {A : Type} (a : A) : frame (ret a).
Proof. intros s a' s' H. injection H as _ <-. split; [lia|reflexivity]. Qed.

Lemma frame_alloc t : frame (alloc t).
Proof.
  intros s a s' H. injection H as _ <-. simpl. split; [lia|].
  intros q Hq. replace (Nat.eqb q (next s)) with false by (symmetry; apply Nat.eqb_neq; lia).
  reflexivity.
Qed.

Lemma frame_get_vec p : frame (get_vec p).
Proof.
  intros s a s' H. unfold get_vec in H. destruct (cells s p) as [[]|]; try discriminate.
  injection H as _ <-. split; [lia|reflexivity].
Qed.

Lemma frame_get_mat p : frame (get_mat p).
Proof.
  intros s a s' H. unfold get_mat in H. destruct (cells s p) as [[]|]; try discriminate.
  injection H as _ <-. split; [lia|reflexivity].
Qed.

Lemma frame_get_scalar p : frame (get_scalar p).
Proof.
  intros s a s' H. unfold get_scalar in H. destruct (cells s p) as [[]|]; try discriminate.
  injection H as _ <-. split; [lia|reflexivity].
Qed.

Lemma frame_bind {A B : Type} (m : ST A) (k : A -> ST B) :
  frame m -> (forall a, frame (k a)) -> frame (bind m k).
Proof.
  intros Hm Hk s b s'' H. unfold bind in H. destruct (m s) as [[a s']|] eqn:E; [|discriminate].
  destruct (Hm s a s' E) as [H1 H2]. destruct (Hk a s' b s'' H) as [H3 H4].
  split; [lia|]. intros q Hq. rewrite H4 by lia. apply H2. exact Hq.
Qed.

Create HintDb frame.
#[export] Hint Resolve frame_ret frame_alloc frame_get_vec frame_get_mat frame_get_scalar : frame.

Ltac frame_prog := repeat (apply frame_bind; [auto with frame|intro]); auto with frame.

(** Symbolic execution of a store program: reduce the reads, deciding
    each handle comparison. *)
Ltac run_prog :=
  repeat (first [progress cbn [next cells]
                | match goal with
                  | H : cells _ _ = Some _ |- _ => rewrite H
                  end
                | match goal with
                  | |- context [Nat.eqb ?a ?b] => destruct (Nat.eqb_spec a b); try lia
                  end]).

Lemma woodbury_factor_prog_frame k n pV pS : frame (woodbury_factor_prog k n pV pS).
Proof. unfold woodbury_factor_prog. frame_prog. Qed.

Lemma woodbury_solve_prog_frame k n pb pV pR pS : frame (woodbury_solve_prog k n pb pV pR pS).
Proof. unfold woodbury_solve_prog. frame_prog. Qed.

Lemma woodbury_factor_prog_run k n V shift pV pS s :
  (pV < next s)%nat -> (pS < next s)%nat ->
  cells s pV = Some (TMat V) -> cells s pS = Some (TVec shift) ->
  exists r s', woodbury_factor_prog k n pV pS s = Some (r, s') /\
    cells s' r = Some (TMat (woodbury_factor k n V shift)).
Proof.
  intros HV HS HcV HcS.
  unfold woodbury_factor_prog, bind, ret, alloc, alloc_st, get_vec, get_mat, get_scalar.
  run_prog. eexists; eexists; split; [reflexivity|]. run_prog. reflexivity.
Qed.

Lemma woodbury_solve_prog_run k n b V Rm shift pb pV pR pS s :
  (pb < next s)%nat -> (pV < next s)%nat -> (pR < next s)%nat -> (pS < next s)%nat ->
  cells s pb = Some (TMat b) -> cells s pV = Some (TMat V) ->
  cells s pR = Some (TMat Rm) -> cells s pS = Some (TVec shift) ->
  exists r s', woodbury_solve_prog k n pb pV pR pS s = Some (r, s') /\
    cells s' r = Some (TMat (woodbury_solve k n b V Rm shift)).
Proof.
  intros Hb HV HR HS Hcb HcV HcR HcS.
  unfold woodbury_solve_prog, bind, ret, alloc, alloc_st, get_vec, get_mat, get_scalar.
  run_prog. eexists; eexists; split; [reflexivity|]. run_prog. reflexivity.
Qed.

(** C10. [woodbury_factor] and [woodbury_solve] leave their input tensors
    unchanged: on a store holding [V], [shift], [b] and [R] at the handles
    [pV], [pS], [pb] and [pR], each call returns a new tensor holding the
    value of [woodbury_factor] (resp. [woodbury_solve]), and every tensor
    that existed before the call, the inputs among them, holds the same
    contents afterwards. *)
Theorem woodbury_inputs_unchanged k n V shift b Rm pV pS pb pR s :
  (pV < next s)%nat -> (pS < next s)%nat -> (pb < next s)%nat -> (pR < next s)%nat ->
  cells s pV = Some (TMat V) -> cells s pS = Some (TVec shift) ->
  cells s pb = Some (TMat b) -> cells s pR = Some (TMat Rm) ->
  (exists r s', woodbury_factor_prog k n pV pS s = Some (r, s') /\
     cells s' r = Some (TMat (woodbury_factor k n V shift)) /\
     forall q, (q < next s)%nat -> cells s' q = cells s q) /\
  (exists r s', woodbury_solve_prog k n pb pV pR pS s = Some (r, s') /\
     cells s' r = Some (TMat (woodbury_solve k n b V Rm shift)) /\
     forall q, (q < next s)%nat -> cells s' q = cells s q).
Proof.
  intros HV HS Hb HR HcV HcS Hcb HcR. split.
  - destruct (woodbury_factor_prog_run k n V shift pV pS s HV HS HcV HcS) as [r [s' [Hrun Hr]]].
    exists r, s'. split; [exact Hrun|]. split; [exact Hr|].
    exact (proj2 (woodbury_factor_prog_frame k n pV pS s r s' Hrun)).
  - destruct (woodbury_solve_prog_run k n b V Rm shift pb pV pR pS s Hb HV HR HS Hcb HcV HcR HcS)
      as [r [s' [Hrun Hr]]].
    exists r, s'. split; [exact Hrun|]. split; [exact Hr|].
    exact (proj2 (woodbury_solve_prog_frame k n pb pV pR pS s r s' Hrun)).
Qed.

Lemma woodbury_inputs_unchanged_witness :
  (exists r s', woodbury_factor_prog 2 3 0 1 store3 = Some (r, s') /\
     cells s' r = Some (TMat (woodbury_factor 2 3 V3 shift3)) /\
     forall q, (q < next store3)%nat -> cells s' q = cells store3 q) /\
  (exists r s', woodbury_solve_prog 2 3 2 0 3 1 store3 = Some (r, s') /\
     cells s' r = Some (TMat (woodbury_solve 2 3 b3 V3 (woodbury_factor 2 3 V3 shift3) shift3)) /\
     forall q, (q < next store3)%nat -> cells s' q = cells store3 q).
Proof.
  apply (woodbury_inputs_unchanged 2 3 V3 shift3 b3 (woodbury_factor 2 3 V3 shift3) 0 1 2 3 store3);
    simpl; try lia; reflexivity.
Defined.

(* ------------------------------------------------------------------ *)
(** ** Further properties of [pivoted_cholesky] *)

(** One iteration writes row [m] of [L] and nothing else. *)
Lemma pc_step_L_row A n m st :
  exists row, pc_L (pc_step A n m st) = set_row (pc_L st) m row.
Proof.
  unfold pc_step. destruct (torch_max (gather (pc_diag st) (skipn m (pc_perm st)))) as [v k].
  destruct (Nat.ltb (m + 1) n); eexists; reflexivity.
Qed.

(** One iteration swaps the positions [m] and [k + m] of the permutation. *)
Lemma pc_step_perm_eq A n m st :
  exists k, pc_perm (pc_step A n m st)
    = set_nth (set_nth (pc_perm st) m (nth (k + m) (pc_perm st) O)) (k + m) (nth m (pc_perm st) O).
Proof.
  unfold pc_step. destruct (torch_max (gather (pc_diag st) (skipn m (pc_perm st)))) as [v k].
  exists k. destruct (Nat.ltb (m + 1) n); reflexivity.
Qed.

Lemma pc_iter_L_high A n j r i : (j <= r)%nat -> pc_L (pc_iter A n j) r i = 0.
Proof.
  induction j as [|j IH]; intros Hr; [reflexivity|]. simpl.
  destruct (pc_step_L_row A n j (pc_iter A n j)) as [row ->]. unfold set_row.
  destruct (Nat.eqb_spec r j); [lia|]. apply IH; lia.
Qed.

Lemma pc_iter_L_stable A n j j' r i :
  (r < j)%nat -> (j <= j')%nat -> pc_L (pc_iter A n j') r i = pc_L (pc_iter A n j) r i.
Proof.
  intros Hr Hj. induction Hj as [|j' Hj IH]; [reflexivity|]. simpl.
  destruct (pc_step_L_row A n j' (pc_iter A n j')) as [row ->]. unfold set_row.
  destruct (Nat.eqb_spec r j'); [lia|]. exact IH.
Qed.

Lemma pc_iter_perm_firstn A n j j' :
  (j <= j')%nat -> firstn j (pc_perm (pc_iter A n j')) = firstn j (pc_perm (pc_iter A n j)).
Proof.
  intros Hj. induction Hj as [|j' Hj IH]; [reflexivity|]. simpl.
  destruct (pc_step_perm_eq A n j' (pc_iter A n j')) as [k ->].
  rewrite !firstn_set_nth by lia. exact IH.
Qed.

Lemma nth_firstn_below (l : list nat) j q : (q < j)%nat -> nth q (firstn j l) O = nth q l O.
Proof.
  intros Hq. rewrite nth_firstn. replace (q <? j)%nat with true by (symmetry; apply Nat.ltb_lt; exact Hq).
  reflexivity.
Qed.

Lemma nth_firstn_same (l1 l2 : list nat) j q :
  firstn j l1 = firstn j l2 -> (q < j)%nat -> nth q l1 O = nth q l2 O.
Proof.
  intros H Hq. rewrite <- (nth_firstn_below l1 j q Hq), <- (nth_firstn_below l2 j q Hq).
  rewrite H. reflexivity.
Qed.

Lemma norm1_nonneg l : 0 <= norm1 l.
Proof.
  induction l as [|x l IH]; unfold norm1 in *; simpl; [lra|].
  pose proof (Rabs_pos x). lra.
Qed.

Lemma pc_iter_err_nonneg A n j : 0 <= pc_err (pc_iter A n j).
Proof.
  induction j as [|j IH]; [apply norm1_nonneg|]. cbn [pc_iter]. unfold pc_step.
  destruct (torch_max (gather (pc_diag (pc_iter A n j)) (skipn j (pc_perm (pc_iter A n j))))).
  destruct (Nat.ltb (j + 1) n); cbn [pc_err]; [apply norm1_nonneg|exact IH].
Qed.

Lemma pivoted_cholesky_ok_states As n max_iter tol m Ls :
  pivoted_cholesky As n max_iter tol = Ok (m, Ls) ->
  exists sts, pivoted_cholesky_states As n max_iter tol = Ok (m, sts) /\
              Ls = map (fun st => truncate m (pc_L st)) sts.
Proof.
  unfold pivoted_cholesky.
  destruct (pivoted_cholesky_states As n max_iter tol) as [[m' sts]|e]; intros H; [|discriminate].
  injection H as <- <-. exists sts. split; reflexivity.
Qed.

(** The returned factors, as a function of the batch. *)
Lemma pivoted_cholesky_char As n max_iter tol m Ls :
  pivoted_cholesky As n max_iter tol = Ok (m, Ls) ->
  Ls = map (fun A => truncate m (pc_L (pc_iter A n m))) As /\ (0 <= max_iter)%Z /\
  (Z.of_nat m <= Z.min max_iter (Z.of_nat n))%Z /\ (m <= n)%nat /\
  (forall j, (j < m)%nat -> exists e, batch_max (pc_errors As n j) = Some e /\ tol < e) /\
  (Z.of_nat m = Z.min max_iter (Z.of_nat n) \/
   exists e, batch_max (pc_errors As n m) = Some e /\ e <= tol).
Proof.
  intros H. destruct (pivoted_cholesky_ok_states _ _ _ _ _ _ H) as [sts [Hs ->]].
  destruct (pc_states_char _ _ _ _ _ _ Hs) as [-> Hrest]. rewrite map_map.
  split; [reflexivity|exact Hrest].
Qed.

Lemma in_combine_map (As : list mat) (g : mat -> mat) A L :
  In (A, L) (combine As (map g As)) -> In A As /\ L = g A.
Proof.
  rewrite combine_map_r. intros H. apply in_map_iff in H as [A' [HE HA]].
  injection HE as <- <-. split; [exact HA|reflexivity].
Qed.

Lemma truncate_gram m L a b :
  rsum m (fun r => truncate m L r a * truncate m L r b) = rsum m (fun r => L r a * L r b).
Proof.
  apply rsum_ext. intros r Hr. unfold truncate.
  replace (Nat.ltb r m) with true by (symmetry; apply Nat.ltb_lt; exact Hr). reflexivity.
Qed.

Lemma truncate_truncate m1 m2 (X : mat) :
  (m1 <= m2)%nat -> truncate m1 (truncate m2 X) = truncate m1 X.
Proof.
  intros Hm. extensionality j. extensionality i. unfold truncate.
  destruct (Nat.ltb_spec j m1); [|reflexivity].
  replace (Nat.ltb j m2) with true by (symmetry; apply Nat.ltb_lt; lia). reflexivity.
Qed.

(** The first [m] rows are the same after [m] or more iterations. *)
Lemma truncate_pc_iter A n m m' :
  (m <= m')%nat -> truncate m (pc_L (pc_iter A n m')) = truncate m (pc_L (pc_iter A n m)).
Proof.
  intros Hm. extensionality j. extensionality i. unfold truncate.
  destruct (Nat.ltb_spec j m); [|reflexivity]. apply pc_iter_L_stable; lia.
Qed.

(** The row of [L] written in iteration [r] is zero at the earlier pivots. *)
Lemma pc_step_row_zero A n r st :
  Permutation (seq 0 n) (pc_perm st) -> (r < n)%nat -> (forall i, pc_L st r i = 0) ->
  forall q, (q < r)%nat -> pc_L (pc_step A n r st) r (nth q (pc_perm (pc_step A n r st)) O) = 0.
Proof.
  intros Hp Hr Hz q Hq.
  destruct (pc_step_spec A n r st Hp Hr) as [idx [Hidx [_ [Hperm' Hbr]]]].
  cbv zeta in Hperm', Hbr. rewrite Hperm'.
  set (P := pc_perm st) in *.
  set (P' := set_nth (set_nth P r (nth idx P O)) idx (nth r P O)) in *.
  assert (Hlen' : length P' = n)
    by (apply (length_perm n P'); apply swap_is_perm; assumption).
  assert (Hin : In (nth q P' O) (firstn r P)).
  { rewrite <- (swap_firstn n r idx P Hidx). fold P'.
    rewrite <- (nth_firstn_below P' r q Hq). apply nth_In.
    rewrite length_firstn. lia. }
  destruct (swap_disjoint n r idx P Hp Hidx _ Hin) as [Hne Hni]. fold P' in Hni.
  assert (Hnp : ~ In (nth q P' O) [nth idx P O]) by (intros [H|[]]; apply Hne; symmetry; exact H).
  destruct (Nat.ltb (S r) n); destruct Hbr as [_ [HL _]]; rewrite HL; unfold set_row;
    rewrite Nat.eqb_refl.
  - rewrite scatter_notin by exact Hni. rewrite scatter_notin by exact Hnp. apply Hz.
  - rewrite scatter_notin by exact Hnp. apply Hz.
Qed.

(** The residual after [j] rows, summed over the diagonal, is the error of
    the loop state (for [j < n], on a symmetric PSD input). *)
Lemma pc_err_trace A n j :
  symmetric n A -> psd n A -> (j < n)%nat ->
  rsum n (fun a => resid A (pc_L (pc_iter A n j)) j a a) = pc_err (pc_iter A n j).
Proof.
  intros Hs Hp Hj.
  destruct (pc_iter_inv A n Hs Hp j ltac:(lia)) as [HP [_ [HD [HF [HS HE]]]]].
  set (st := pc_iter A n j) in *.
  rewrite (HE Hj), <- lsum_seq_rsum, (lsum_perm _ _ _ HP).
  rewrite <- (firstn_skipn j (pc_perm st)), lsum_app.
  assert (H0 : lsum (firstn j (pc_perm st)) (fun a => resid A (pc_L st) j a a) = 0).
  { rewrite (lsum_ext _ _ (fun _ => 0)).
    - clear. induction (firstn j (pc_perm st)); simpl; lra.
    - intros a Ha. apply HF; [exact Ha|]. apply (In_perm_seq n _ a HP).
      rewrite <- (firstn_skipn j (pc_perm st)). apply in_or_app. left. exact Ha. }
  rewrite H0, Rplus_0_l, firstn_skipn. apply lsum_ext. intros i Hi.
  rewrite HD by exact Hi. symmetry. apply Rabs_right. apply Rle_ge.
  apply (psd_diag n); [apply resid_sym; exact Hs|exact HS|].
  apply (In_perm_seq n _ i HP). rewrite <- (firstn_skipn j (pc_perm st)).
  apply in_or_app. right. exact Hi.
Qed.

Lemma ones_diag_norm : norm1 (gather (fun i => ones i i) (seq 0 1)) = 1.
Proof. exact ones_err0. Qed.

Lemma A2_pc2 : pivoted_cholesky [A2] 2 2 0 = Ok (2%nat, [truncate 2 (pc_L (pc_iter A2 2 2))]).
Proof. unfold pivoted_cholesky. rewrite A2_run2. reflexivity. Qed.

Lemma A2_pc1 : pivoted_cholesky [A2] 2 1 0 = Ok (1%nat, [truncate 1 (pc_L (pc_iter A2 2 1))]).
Proof. unfold pivoted_cholesky. rewrite (A2_states 1 0 ltac:(lia) ltac:(lra)). reflexivity. Qed.

Lemma A2_pc_tol1 : pivoted_cholesky [A2] 2 2 1 = Ok (1%nat, [truncate 1 (pc_L (pc_iter A2 2 1))]).
Proof. unfold pivoted_cholesky. rewrite A2_states_tol1. reflexivity. Qed.

Lemma A2_ones_pc : pivoted_cholesky [A2; ones] 2 2 0 = Ok (2%nat, [truncate 2 (pc_L (pc_iter A2 2 2)); truncate 2 (pc_L (pc_iter ones 2 2))]).
Proof. unfold pivoted_cholesky. rewrite A2_ones_states. reflexivity. Qed.

Lemma ones2_pc : pivoted_cholesky [ones] 2 2 0 = Ok (1%nat, [truncate 1 (pc_L (pc_iter ones 2 1))]).
Proof. unfold pivoted_cholesky. rewrite ones2_states. reflexivity. Qed.



(** X3. When [error_tol] is at least the initial error of every batch
    element (the L1 norm of its diagonal), a non-empty batch with
    [max_iter >= 0] gets an empty factor: the loop body never runs. *)
Theorem pivoted_cholesky_tol_above_initial_errors As n max_iter tol :
  As <> [] -> (0 <= max_iter)%Z ->
  (forall A, In A As -> norm1 (gather (fun i => A i i) (seq 0 n)) <= tol) ->
  pivoted_cholesky As n max_iter tol = Ok (0%nat, map (fun _ => fun _ _ => 0) As).
Proof.
  intros Hne Hmi Hle.
  destruct (pc_states_ok As n max_iter tol Hne Hmi) as [m Hrun].
  destruct (pc_states_char _ _ _ _ _ _ Hrun) as [_ [_ [_ [_ [Hruns _]]]]].
  destruct m as [|m].
  - unfold pivoted_cholesky. rewrite Hrun, map_map. reflexivity.
  - exfalso. destruct (Hruns O ltac:(lia)) as [e [He Hlt]].
    apply batch_max_in, in_pc_errors in He as [A [HA ->]].
    specialize (Hle A HA). cbn [pc_iter pc_init pc_err] in Hlt. lra.
Qed.

Lemma pivoted_cholesky_tol_above_initial_errors_witness :
  [ones] <> [] /\ (0 <= 1)%Z /\
  (forall A, In A [ones] -> norm1 (gather (fun i => A i i) (seq 0 1)) <= 1) /\
  pivoted_cholesky [ones] 1 1 1 = Ok (0%nat, map (fun _ => fun _ _ => 0) [ones]).
Proof.
  assert (Hle : forall A, In A [ones] -> norm1 (gather (fun i => A i i) (seq 0 1)) <= 1).
  { intros A [<-|[]]. rewrite ones_diag_norm. lra. }
  split; [discriminate|]. split; [lia|]. split; [exact Hle|].
  apply pivoted_cholesky_tol_above_initial_errors; [discriminate|lia|exact Hle].
Defined.

(** X4. Increasing [max_iter] (same batch, same [error_tol]) only appends
    rows: with [a <= b], the call with [max_iter = a] returns
    [m1 = min(m2, min(a, n))] rows, where [m2] is the row count of the call
    with [max_iter = b], and its factors are the first [m1] rows of the
    factors of that call. *)
Theorem pivoted_cholesky_max_iter_prefix As n a b tol m1 Ls1 m2 Ls2 :
  (a <= b)%Z ->
  pivoted_cholesky As n a tol = Ok (m1, Ls1) ->
  pivoted_cholesky As n b tol = Ok (m2, Ls2) ->
  m1 = Nat.min m2 (Z.to_nat (Z.min a (Z.of_nat n))) /\ Ls1 = map (truncate m1) Ls2.
Proof.
  intros Hab H1 H2.
  destruct (pivoted_cholesky_char _ _ _ _ _ _ H1) as [HL1 [Ha [Hm1 [Hn1 [Hr1 Hs1]]]]].
  destruct (pivoted_cholesky_char _ _ _ _ _ _ H2) as [HL2 [Hb [Hm2 [Hn2 [Hr2 Hs2]]]]].
  assert (Hdet : forall j e e', batch_max (pc_errors As n j) = Some e -> tol < e ->
                 batch_max (pc_errors As n j) = Some e' -> e' <= tol -> False).
  { intros j e e' He Hlt He' Hle. rewrite He in He'. injection He' as ->. lra. }
  assert (Hm : m1 = Nat.min m2 (Z.to_nat (Z.min a (Z.of_nat n)))).
  { destruct (Nat.lt_total m1 m2) as [Hlt|[Heq|Hgt]].
    - destruct Hs1 as [Hlim|[e [He Hle]]]; [lia|].
      destruct (Hr2 m1 Hlt) as [e' [He' Hlt']]. exfalso. exact (Hdet m1 e' e He' Hlt' He Hle).
    - subst m2. lia.
    - destruct Hs2 as [Hlim|[e [He Hle]]]; [lia|].
      destruct (Hr1 m2 Hgt) as [e' [He' Hlt']]. exfalso. exact (Hdet m2 e' e He' Hlt' He Hle). }
  split; [exact Hm|]. rewrite HL1, HL2, map_map. apply map_ext. intros A.
  rewrite truncate_truncate by lia. symmetry. apply truncate_pc_iter. lia.
Qed.

Lemma pivoted_cholesky_max_iter_prefix_witness :
  (1 <= 2)%Z /\
  pivoted_cholesky [A2] 2 1 0 = Ok (1%nat, [truncate 1 (pc_L (pc_iter A2 2 1))]) /\
  pivoted_cholesky [A2] 2 2 0 = Ok (2%nat, [truncate 2 (pc_L (pc_iter A2 2 2))]) /\
  1%nat = Nat.min 2 (Z.to_nat (Z.min 1 (Z.of_nat 2))) /\
  [truncate 1 (pc_L (pc_iter A2 2 1))] = map (truncate 1) [truncate 2 (pc_L (pc_iter A2 2 2))].
Proof.
  split; [lia|]. split; [exact A2_pc1|]. split; [exact A2_pc2|].
  exact (pivoted_cholesky_max_iter_prefix [A2] 2 1 2 0 _ _ _ _ ltac:(lia) A2_pc1 A2_pc2).
Defined.

(** X5. Batch elements are factored independently: the factor that a
    batched call returns for an element [A] is the factor that a call on
    [A] alone returns with [max_iter] set to the batch's row count [m] and
    any negative [error_tol] (which never stops the loop early). *)
Theorem pivoted_cholesky_batch_elementwise As n max_iter tol m Ls tol' :
  pivoted_cholesky As n max_iter tol = Ok (m, Ls) -> tol' < 0 ->
  forall A L, In (A, L) (combine As Ls) ->
    pivoted_cholesky [A] n (Z.of_nat m) tol' = Ok (m, [L]).
Proof.
  intros H Ht A L HAL.
  destruct (pivoted_cholesky_char _ _ _ _ _ _ H) as [HLs [_ [_ [Hmn _]]]].
  rewrite HLs in HAL. apply in_combine_map in HAL as [_ ->].
  destruct (pc_states_ok [A] n (Z.of_nat m) tol' ltac:(discriminate) ltac:(lia)) as [m' Hrun].
  destruct (pc_states_char _ _ _ _ _ _ Hrun) as [_ [_ [Hm' [_ [_ Hstop]]]]].
  assert (m' = m).
  { destruct Hstop as [Hlim|[e [He Hle]]]; [lia|].
    exfalso. rewrite pc_errors_single in He. injection He as <-.
    pose proof (pc_iter_err_nonneg A n m'). lra. }
  subst m'. unfold pivoted_cholesky. rewrite Hrun. reflexivity.
Qed.

(** In the batch [[A2; ones]] the loop runs two iterations because of
    [A2], while [ones] alone (with the same [error_tol = 0]) stops after
    one; its factor in the batch is still the one of a call on [ones]
    alone with [max_iter = 2]. *)
Lemma pivoted_cholesky_batch_elementwise_witness :
  pivoted_cholesky [A2; ones] 2 2 0 = Ok (2%nat, [truncate 2 (pc_L (pc_iter A2 2 2)); truncate 2 (pc_L (pc_iter ones 2 2))]) /\ -1 < 0 /\
  In (ones, truncate 2 (pc_L (pc_iter ones 2 2))) (combine [A2; ones] [truncate 2 (pc_L (pc_iter A2 2 2)); truncate 2 (pc_L (pc_iter ones 2 2))]) /\
  pivoted_cholesky [ones] 2 2 0 = Ok (1%nat, [truncate 1 (pc_L (pc_iter ones 2 1))]) /\
  pivoted_cholesky [ones] 2 (Z.of_nat 2) (-1) = Ok (2%nat, [truncate 2 (pc_L (pc_iter ones 2 2))]).
Proof.
  assert (Hin : In (ones, truncate 2 (pc_L (pc_iter ones 2 2))) (combine [A2; ones] [truncate 2 (pc_L (pc_iter A2 2 2)); truncate 2 (pc_L (pc_iter ones 2 2))])) by (right; left; reflexivity).
  split; [exact A2_ones_pc|]. split; [lra|]. split; [exact Hin|]. split; [exact ones2_pc|].
  exact (pivoted_cholesky_batch_elementwise _ _ _ _ _ _ (-1) A2_ones_pc ltac:(lra) _ _ Hin).
Defined.

(** X6. The pivot is chosen greedily: in every iteration [j] of a run, the
    pivot placed at position [j] of the permutation is one of the indices
    not yet pivoted (positions [j .. n-1] before the swap), and its working
    diagonal value is at least that of every such index. *)
Theorem pivoted_cholesky_greedy_pivot As n max_iter tol m sts :
  pivoted_cholesky_states As n max_iter tol = Ok (m, sts) ->
  sts = map (fun A => pc_iter A n m) As /\
  forall A, In A As -> forall j, (j < m)%nat ->
    In (nth j (pc_perm (pc_iter A n (S j))) O) (skipn j (pc_perm (pc_iter A n j))) /\
    forall i, In i (skipn j (pc_perm (pc_iter A n j))) ->
      pc_diag (pc_iter A n j) i <= pc_diag (pc_iter A n j) (nth j (pc_perm (pc_iter A n (S j))) O).
Proof.
  intros H. destruct (pc_states_char _ _ _ _ _ _ H) as [Hsts [_ [_ [Hmn _]]]].
  split; [exact Hsts|]. intros A _ j Hj.
  assert (Hp : Permutation (seq 0 n) (pc_perm (pc_iter A n j))) by (apply pc_iter_perm; lia).
  destruct (pc_step_spec A n j (pc_iter A n j) Hp ltac:(lia)) as [idx [Hidx [Hmax [Hperm' _]]]].
  cbv zeta in Hmax, Hperm'. cbn [pc_iter]. rewrite Hperm'.
  rewrite (swap_pivot n j idx _ Hp Hidx).
  split; [exact (swap_pivot_in n j idx _ Hp Hidx)|exact Hmax].
Qed.

Lemma pivoted_cholesky_greedy_pivot_witness :
  pivoted_cholesky_states [A2] 2 2 0 = Ok (2%nat, [pc_iter A2 2 2]) /\
  pc_perm (pc_iter A2 2 1) = [1%nat; 0%nat] /\
  [pc_iter A2 2 2] = map (fun A => pc_iter A 2 2) [A2] /\
  forall A, In A [A2] -> forall j, (j < 2)%nat ->
    In (nth j (pc_perm (pc_iter A 2 (S j))) O) (skipn j (pc_perm (pc_iter A 2 j))) /\
    forall i, In i (skipn j (pc_perm (pc_iter A 2 j))) ->
      pc_diag (pc_iter A 2 j) i <= pc_diag (pc_iter A 2 j) (nth j (pc_perm (pc_iter A 2 (S j))) O).
Proof.
  split; [exact A2_run2|]. split; [exact (proj1 A2_iter1)|].
  exact (pivoted_cholesky_greedy_pivot _ _ _ _ _ _ A2_run2).
Defined.

(** X7. Every returned factor is lower triangular in pivot order: there is
    a permutation [P] of [0 .. n-1] (the final pivot order) such that row
    [r] of the factor is zero at every earlier pivot [P q], [q < r]. *)
Theorem pivoted_cholesky_factor_triangular As n max_iter tol m Ls :
  pivoted_cholesky As n max_iter tol = Ok (m, Ls) ->
  forall L, In L Ls -> exists P, Permutation (seq 0 n) P /\
    forall q r, (q < r)%nat -> (r < m)%nat -> L r (nth q P O) = 0.
Proof.
  intros H L HL. destruct (pivoted_cholesky_char _ _ _ _ _ _ H) as [HLs [_ [_ [Hmn _]]]].
  rewrite HLs in HL. apply in_map_iff in HL as [A [<- _]].
  exists (pc_perm (pc_iter A n m)). split; [apply pc_iter_perm; exact Hmn|].
  intros q r Hq Hr. unfold truncate.
  replace (Nat.ltb r m) with true by (symmetry; apply Nat.ltb_lt; exact Hr).
  rewrite (pc_iter_L_stable A n (S r) m r) by lia.
  rewrite (nth_firstn_same _ (pc_perm (pc_iter A n (S r))) (S r) q)
    by (try apply pc_iter_perm_firstn; lia).
  cbn [pc_iter]. apply pc_step_row_zero; [apply pc_iter_perm; lia|lia| |exact Hq].
  intros i. apply pc_iter_L_high. lia.
Qed.

Lemma pivoted_cholesky_factor_triangular_witness :
  pivoted_cholesky [A2] 2 2 0 = Ok (2%nat, [truncate 2 (pc_L (pc_iter A2 2 2))]) /\
  In (truncate 2 (pc_L (pc_iter A2 2 2))) [truncate 2 (pc_L (pc_iter A2 2 2))] /\
  exists P, Permutation (seq 0 2) P /\
    forall q r, (q < r)%nat -> (r < 2)%nat -> truncate 2 (pc_L (pc_iter A2 2 2)) r (nth q P O) = 0.
Proof.
  assert (Hin : In (truncate 2 (pc_L (pc_iter A2 2 2))) [truncate 2 (pc_L (pc_iter A2 2 2))]) by (left; reflexivity).
  split; [exact A2_pc2|]. split; [exact Hin|].
  exact (pivoted_cholesky_factor_triangular _ _ _ _ _ _ A2_pc2 _ Hin).
Defined.

(** X8. For a single symmetric PSD matrix [A] and [error_tol >= 0] (so
    the loop only runs while the largest remaining diagonal entry, the
    pivot, is positive), the approximation error [A - L^t L] of the
    returned factor [L] is positive semi-definite; in particular
    [sum_r L[r, a]^2 <= A[a, a]] for every [a < n]. *)
Theorem pivoted_cholesky_residual_psd A n max_iter tol m L :
  pivoted_cholesky [A] n max_iter tol = Ok (m, [L]) -> 0 <= tol ->
  symmetric n A -> psd n A ->
    psd n (fun a b => A a b - rsum m (fun r => L r a * L r b)) /\
    forall a, (a < n)%nat -> rsum m (fun r => L r a * L r a) <= A a a.
Proof.
  intros H _ Hs Hp.
  assert (HAL : In (A, L) (combine [A] [L])) by (left; reflexivity).
  destruct (pivoted_cholesky_char _ _ _ _ _ _ H) as [HLs [_ [_ [Hmn _]]]].
  rewrite HLs in HAL. apply in_combine_map in HAL as [_ ->].
  assert (HE : (fun a b => A a b - rsum m (fun r => truncate m (pc_L (pc_iter A n m)) r a
                                                     * truncate m (pc_L (pc_iter A n m)) r b))
               = resid A (pc_L (pc_iter A n m)) m).
  { extensionality a. extensionality b. unfold resid. rewrite truncate_gram. reflexivity. }
  rewrite HE.
  destruct (pc_iter_inv A n Hs Hp m Hmn) as [_ [_ [_ [_ [HS _]]]]].
  split; [exact HS|]. intros a Ha.
  pose proof (psd_diag n _ a (resid_sym A (pc_L (pc_iter A n m)) n m Hs) HS Ha) as H0.
  unfold resid in H0. rewrite truncate_gram. lra.
Qed.

Lemma pivoted_cholesky_residual_psd_witness :
  pivoted_cholesky [A2] 2 1 0 = Ok (1%nat, [truncate 1 (pc_L (pc_iter A2 2 1))]) /\
  0 <= 0 /\ symmetric 2 A2 /\ psd 2 A2 /\
  psd 2 (fun a b => A2 a b - rsum 1 (fun r => truncate 1 (pc_L (pc_iter A2 2 1)) r a * truncate 1 (pc_L (pc_iter A2 2 1)) r b)) /\
  forall a, (a < 2)%nat -> rsum 1 (fun r => truncate 1 (pc_L (pc_iter A2 2 1)) r a * truncate 1 (pc_L (pc_iter A2 2 1)) r a) <= A2 a a.
Proof.
  split; [exact A2_pc1|]. split; [lra|]. split; [exact A2_sym|]. split; [exact A2_psd|].
  exact (pivoted_cholesky_residual_psd _ _ _ _ _ _ A2_pc1 (Rle_refl 0) A2_sym A2_psd).
Defined.

(** X9. For a single symmetric PSD matrix [A] and [error_tol >= 0], the
    returned factor [L] of [m] rows reproduces [A] exactly on the rows of
    the [m] pivots: there is a permutation [P] of [0 .. n-1] with
    [(L^t L)[P q, b] = A[P q, b]] for all [q < m] and [b < n]. *)
Theorem pivoted_cholesky_exact_on_pivots A n max_iter tol m L :
  pivoted_cholesky [A] n max_iter tol = Ok (m, [L]) -> 0 <= tol ->
  symmetric n A -> psd n A ->
    exists P, Permutation (seq 0 n) P /\
      forall q b, (q < m)%nat -> (b < n)%nat ->
        rsum m (fun r => L r (nth q P O) * L r b) = A (nth q P O) b.
Proof.
  intros H _ Hs Hp.
  assert (HAL : In (A, L) (combine [A] [L])) by (left; reflexivity).
  destruct (pivoted_cholesky_char _ _ _ _ _ _ H) as [HLs [_ [_ [Hmn _]]]].
  rewrite HLs in HAL. apply in_combine_map in HAL as [_ ->].
  destruct (pc_iter_inv A n Hs Hp m Hmn) as [HP [_ [_ [HF _]]]].
  exists (pc_perm (pc_iter A n m)). split; [exact HP|]. intros q b Hq Hb.
  rewrite truncate_gram.
  assert (Hin : In (nth q (pc_perm (pc_iter A n m)) O) (firstn m (pc_perm (pc_iter A n m)))).
  { rewrite <- (nth_firstn_below _ m q Hq). apply nth_In.
    rewrite length_firstn, (length_perm n _ HP). lia. }
  pose proof (HF _ b Hin Hb) as Hz. unfold resid in Hz. lra.
Qed.

Lemma pivoted_cholesky_exact_on_pivots_witness :
  pivoted_cholesky [A2] 2 1 0 = Ok (1%nat, [truncate 1 (pc_L (pc_iter A2 2 1))]) /\
  0 <= 0 /\ symmetric 2 A2 /\ psd 2 A2 /\
  exists P, Permutation (seq 0 2) P /\
    forall q b, (q < 1)%nat -> (b < 2)%nat ->
      rsum 1 (fun r => truncate 1 (pc_L (pc_iter A2 2 1)) r (nth q P O) * truncate 1 (pc_L (pc_iter A2 2 1)) r b) = A2 (nth q P O) b.
Proof.
  split; [exact A2_pc1|]. split; [lra|]. split; [exact A2_sym|]. split; [exact A2_psd|].
  exact (pivoted_cholesky_exact_on_pivots _ _ _ _ _ _ A2_pc1 (Rle_refl 0) A2_sym A2_psd).
Defined.

(** X10. For a single symmetric PSD matrix [A] and [error_tol >= 0], if
    the loop stops before [min(max_iter, n)] iterations, then the trace of
    the approximation error [A - L^t L] of the returned factor [L] is at
    most [error_tol]. *)
Theorem pivoted_cholesky_early_stop_trace A n max_iter tol m L :
  pivoted_cholesky [A] n max_iter tol = Ok (m, [L]) -> 0 <= tol ->
  (Z.of_nat m < Z.min max_iter (Z.of_nat n))%Z ->
  symmetric n A -> psd n A ->
    rsum n (fun a => A a a - rsum m (fun r => L r a * L r a)) <= tol.
Proof.
  intros H _ Hlt Hs Hp.
  assert (HAL : In (A, L) (combine [A] [L])) by (left; reflexivity).
  destruct (pivoted_cholesky_char _ _ _ _ _ _ H) as [HLs [_ [_ [Hmn [_ Hstop]]]]].
  rewrite HLs in HAL. apply in_combine_map in HAL as [HA ->].
  destruct Hstop as [Hlim|[e [He Hle]]]; [lia|].
  pose proof (batch_max_ge _ _ _ He (pc_errors_in [A] n m A HA)) as HeA.
  rewrite (rsum_ext n _ (fun a => resid A (pc_L (pc_iter A n m)) m a a))
    by (intros a _; unfold resid; rewrite truncate_gram; reflexivity).
  rewrite pc_err_trace by (assumption || lia). lra.
Qed.

Lemma pivoted_cholesky_early_stop_trace_witness :
  pivoted_cholesky [A2] 2 2 1 = Ok (1%nat, [truncate 1 (pc_L (pc_iter A2 2 1))]) /\
  0 <= 1 /\ (Z.of_nat 1 < Z.min 2 (Z.of_nat 2))%Z /\ symmetric 2 A2 /\ psd 2 A2 /\
  rsum 2 (fun a => A2 a a - rsum 1 (fun r => truncate 1 (pc_L (pc_iter A2 2 1)) r a * truncate 1 (pc_L (pc_iter A2 2 1)) r a)) <= 1.
Proof.
  split; [exact A2_pc_tol1|]. split; [lra|]. split; [lia|]. split; [exact A2_sym|].
  split; [exact A2_psd|].
  exact (pivoted_cholesky_early_stop_trace _ _ _ _ _ _ A2_pc_tol1 Rle_0_1 ltac:(lia)
           A2_sym A2_psd).
Defined.

(** X11. For a single symmetric PSD matrix [A] and [error_tol >= 0], the
    returned factor [L] satisfies [L^t L = A] exactly when every index was
    pivoted ([m = n]), or when [max_iter >= n] and [error_tol = 0]. *)
Theorem pivoted_cholesky_exact_reconstruction A n max_iter tol m L :
  pivoted_cholesky [A] n max_iter tol = Ok (m, [L]) -> 0 <= tol ->
  (m = n \/ ((Z.of_nat n <= max_iter)%Z /\ tol = 0)) ->
  symmetric n A -> psd n A ->
    forall a b, (a < n)%nat -> (b < n)%nat -> rsum m (fun r => L r a * L r b) = A a b.
Proof.
  intros H _ Hcase Hs Hp a b Ha Hb.
  assert (HAL : In (A, L) (combine [A] [L])) by (left; reflexivity).
  destruct (pivoted_cholesky_char _ _ _ _ _ _ H) as [HLs [_ [_ [Hmn [_ Hstop]]]]].
  rewrite HLs in HAL. apply in_combine_map in HAL as [HA ->].
  rewrite truncate_gram.
  assert (Hz : resid A (pc_L (pc_iter A n m)) m a b = 0).
  { apply (pc_resid_zero A n Hs m (pc_iter A n m));
      [apply pc_iter_inv; assumption| |assumption|assumption].
    destruct (Nat.eq_dec m n) as [|Hne]; [left; assumption|right]. split; [lia|].
    destruct Hcase as [|[Hn Ht]]; [contradiction|].
    destruct Hstop as [Hlim|[e [He Hle]]]; [lia|].
    pose proof (batch_max_ge _ _ _ He (pc_errors_in [A] n m A HA)). lra. }
  unfold resid in Hz. lra.
Qed.

Lemma pivoted_cholesky_exact_reconstruction_witness :
  pivoted_cholesky [A2] 2 2 0 = Ok (2%nat, [truncate 2 (pc_L (pc_iter A2 2 2))]) /\
  0 <= 0 /\ (2%nat = 2%nat \/ ((Z.of_nat 2 <= 2)%Z /\ 0 = 0)) /\ symmetric 2 A2 /\ psd 2 A2 /\
  forall a b, (a < 2)%nat -> (b < 2)%nat ->
    rsum 2 (fun r => truncate 2 (pc_L (pc_iter A2 2 2)) r a * truncate 2 (pc_L (pc_iter A2 2 2)) r b) = A2 a b.
Proof.
  split; [exact A2_pc2|]. split; [lra|]. split; [left; reflexivity|]. split; [exact A2_sym|].
  split; [exact A2_psd|].
  exact (pivoted_cholesky_exact_reconstruction _ _ _ _ _ _ A2_pc2 (Rle_refl 0) (or_introl eq_refl)
           A2_sym A2_psd).
Defined.

(* ------------------------------------------------------------------ *)
(** ** Further properties of [woodbury_factor] and [woodbury_solve] *)

Lemma rsum_ge_term n p f :
  (p < n)%nat -> (forall i, (i < n)%nat -> 0 <= f i) -> f p <= rsum n f.
Proof.
  induction n as [|n IH]; intros Hp H; [lia|]. rewrite rsum_S.
  destruct (Nat.eq_dec p n) as [->|Hne].
  - assert (0 <= rsum n f) by (apply rsum_nonneg; intros; apply H; lia). lra.
  - assert (f p <= rsum n f) by (apply IH; [lia|intros; apply H; lia]).
    assert (0 <= f n) by (apply H; lia). lra.
Qed.

Lemma shifted_mat_quad k n V shift x :
  quad k (shifted_mat n V shift) x
  = rsum n (fun j => reciprocal shift j / abs_max n (reciprocal shift)
                     * (rsum k (fun a => x a * V a j) * rsum k (fun a => x a * V a j)))
    + rsum k (fun a => x a * x a) / abs_max n (reciprocal shift).
Proof.
  unfold quad, shifted_mat, matmul, transpose, eye. cbv zeta.
  set (s := abs_max n (reciprocal shift)).
  set (d := fun j => reciprocal shift j / s).
  set (w := fun j => rsum k (fun a => x a * V a j)).
  change (fun j => reciprocal shift j / s * (rsum k (fun a => x a * V a j) * rsum k (fun a => x a * V a j)))
    with (fun j => d j * (w j * w j)).
  rewrite (rsum_ext k _ (fun a => rsum n (fun j => d j * (x a * V a j) * w j) + x a * x a / s)).
  - rewrite rsum_plus, rsum_swap.
    rewrite (rsum_ext n (fun j => rsum k (fun a => d j * (x a * V a j) * w j)) (fun j => d j * (w j * w j))).
    + unfold Rdiv. rewrite <- (rsum_scal_r k (/ s) (fun a => x a * x a)). reflexivity.
    + intros j _. rewrite rsum_scal_r, rsum_scal_l. unfold w. ring.
  - intros a Ha.
    rewrite (rsum_ext k _ (fun c => rsum n (fun j => V a j * d j * (x c * V c j))
                                    + (if Nat.eqb c a then x a / s else 0))).
    + rewrite rsum_plus, rsum_eqb by exact Ha. rewrite rsum_swap.
      rewrite (rsum_ext n (fun j => rsum k (fun c => V a j * d j * (x c * V c j)))
                          (fun j => V a j * d j * w j)) by (intros; unfold w; apply rsum_scal_l).
      rewrite Rmult_plus_distr_l, <- rsum_scal_l. unfold Rdiv. f_equal; [|ring].
      apply rsum_ext. intros; ring.
    + intros c Hc. rewrite Rmult_plus_distr_r, <- rsum_scal_r. f_equal.
      * apply rsum_ext. intros j _. unfold d. ring.
      * rewrite Nat.eqb_sym. destruct (Nat.eqb_spec c a) as [->|Hne]; unfold Rdiv; ring.
Qed.

Lemma reciprocal_scaled_pos n shift j :
  (1 <= n)%nat -> (forall i, (i < n)%nat -> 0 < shift i) -> (j < n)%nat ->
  0 < reciprocal shift j / abs_max n (reciprocal shift).
Proof.
  intros Hn Hpos Hj.
  pose proof (abs_max_pos n shift j Hj (Rgt_not_eq _ _ (Hpos j Hj))) as Hs.
  unfold reciprocal. apply Rdiv_lt_0_compat; [apply Rinv_0_lt_compat, Hpos, Hj|exact Hs].
Qed.

Lemma shifted_mat_posdef k n V shift :
  (1 <= n)%nat -> (forall i, (i < n)%nat -> 0 < shift i) -> posdef k (shifted_mat n V shift).
Proof.
  intros Hn Hpos x [a [Ha Hxa]]. rewrite shifted_mat_quad.
  pose proof (abs_max_pos n shift O ltac:(lia) (Rgt_not_eq _ _ (Hpos O ltac:(lia)))) as Hs.
  assert (H1 : 0 <= rsum n (fun j => reciprocal shift j / abs_max n (reciprocal shift)
                     * (rsum k (fun a => x a * V a j) * rsum k (fun a => x a * V a j)))).
  { apply rsum_nonneg. intros j Hj. apply Rmult_le_pos.
    - apply Rlt_le, reciprocal_scaled_pos; assumption.
    - apply Rle_0_sqr. }
  assert (H2 : x a * x a <= rsum k (fun a => x a * x a))
    by (apply (rsum_ge_term k a (fun a => x a * x a)); [exact Ha|intros; apply Rle_0_sqr]).
  assert (H3 : 0 < x a * x a) by (apply Rsqr_pos_lt; exact Hxa).
  assert (0 < rsum k (fun a => x a * x a) / abs_max n (reciprocal shift))
    by (apply Rdiv_lt_0_compat; lra).
  lra.
Qed.

Lemma shifted_mat_sym k n V shift : symmetric k (shifted_mat n V shift).
Proof. exact (woodbury_shifted_mat_sym k n V shift). Qed.

Lemma spec_M_posdef_pos k n V shift :
  (1 <= n)%nat -> (forall i, (i < n)%nat -> 0 < shift i) -> posdef k (spec_M k n V shift).
Proof.
  intros Hn Hpos x Hx. rewrite <- (quad_ext k (shifted_mat n V shift) (spec_M k n V shift) x x).
  - apply shifted_mat_posdef; assumption.
  - intros a c _ _. exact (woodbury_shifted_mat k n V shift a c).
  - reflexivity.
Qed.

(** X14. When every shift is positive (and [n >= 1]), the matrix
    [shifted_mat] that [woodbury_factor] hands to [torch.cholesky] is
    symmetric positive definite, whatever [V]; so the Cholesky factor
    exists and the returned [R] satisfies [shifted_mat R = V]. *)
Theorem woodbury_factor_positive_shift k n V shift :
  (1 <= n)%nat -> (forall i, (i < n)%nat -> 0 < shift i) ->
  woodbury_factor k n V shift = torch_potrs k V (torch_cholesky k (shifted_mat n V shift)) /\
  symmetric k (shifted_mat n V shift) /\ posdef k (shifted_mat n V shift) /\
  forall a c, (a < k)%nat ->
    matmul k (shifted_mat n V shift) (woodbury_factor k n V shift) a c = V a c.
Proof.
  intros Hn Hpos. split; [reflexivity|]. split; [apply shifted_mat_sym|].
  split; [apply shifted_mat_posdef; assumption|]. intros a c Ha.
  rewrite <- (woodbury_factor_spec k n V shift (spec_M_posdef_pos k n V shift Hn Hpos) a c Ha).
  unfold matmul at 1 2. apply rsum_ext. intros b _.
  rewrite <- (woodbury_shifted_mat k n V shift a b). reflexivity.
Qed.

(** X15. When every shift is positive, the Woodbury solve is exact for
    every [V] and right-hand side [b]:
    [(diag(shift) + V^t V) woodbury_solve(b, V, woodbury_factor(V, shift), shift) = b]. *)
Theorem woodbury_solve_positive_shift k n V shift b :
  (forall i, (i < n)%nat -> 0 < shift i) ->
  forall i q, (i < n)%nat ->
    dense_apply k n V shift (woodbury_solve k n b V (woodbury_factor k n V shift) shift) i q = b i q.
Proof.
  intros Hpos i q Hi. apply woodbury_solve_spec; [| |exact Hi].
  - intros j Hj. apply Rgt_not_eq, Hpos, Hj.
  - apply spec_M_posdef_pos; [lia|exact Hpos].
Qed.

(** X13. With an empty low-rank part ([k = 0] rows) and non-zero shifts,
    [woodbury_solve] divides the right-hand side by the shift entrywise:
    the result is [b / shift]. *)
Theorem woodbury_solve_rank_zero n b V Rf shift i q :
  (forall j, (j < n)%nat -> shift j <> 0) -> (i < n)%nat ->
  woodbury_solve 0 n b V Rf shift i q = b i q / shift i.
Proof.
  intros Hsh Hi. pose proof (abs_max_pos n shift i Hi (Hsh i Hi)) as Hs.
  unfold woodbury_solve. cbv zeta.
  unfold matmul at 1. rewrite (rsum_zero n) by (intros c _; unfold matmul; simpl; ring).
  unfold reciprocal. field. split; [apply Hsh, Hi|apply Rgt_not_eq, Hs].
Qed.

(** X12. For non-zero shifts, [woodbury_solve] is linear in its
    right-hand side: for any [V] and factor [R], solving [c1 b1 + c2 b2]
    gives [c1 x1 + c2 x2], where [x1] and [x2] solve [b1] and [b2]. *)
Theorem woodbury_solve_linear k n V Rf shift b1 b2 c1 c2 i q :
  (forall j, (j < n)%nat -> shift j <> 0) ->
  woodbury_solve k n (fun j p => c1 * b1 j p + c2 * b2 j p) V Rf shift i q
  = c1 * woodbury_solve k n b1 V Rf shift i q + c2 * woodbury_solve k n b2 V Rf shift i q.
Proof.
  intros _. unfold woodbury_solve. cbv zeta.
  set (s := abs_max n (reciprocal shift)).
  set (W := matmul k (transpose V) Rf).
  unfold matmul.
  rewrite (rsum_ext n (fun c => W i c * (reciprocal shift c / s * (c1 * b1 c q + c2 * b2 c q)))
             (fun c => c1 * (W i c * (reciprocal shift c / s * b1 c q))
                       + c2 * (W i c * (reciprocal shift c / s * b2 c q)))) by (intros; ring).
  rewrite rsum_plus, !rsum_scal_l. ring.
Qed.

Lemma shift3_pos : forall i, (i < 3)%nat -> 0 < shift3 i.
Proof. intros i _. unfold shift3. lra. Qed.

Lemma woodbury_factor_positive_shift_witness :
  (1 <= 3)%nat /\ (forall i, (i < 3)%nat -> 0 < shift3 i) /\
  posdef 2 (shifted_mat 3 V3 shift3).
Proof.
  split; [lia|]. split; [exact shift3_pos|].
  exact (proj1 (proj2 (proj2 (woodbury_factor_positive_shift 2 3 V3 shift3 ltac:(lia) shift3_pos)))).
Defined.

Lemma woodbury_solve_positive_shift_witness :
  (forall i, (i < 3)%nat -> 0 < shift3 i) /\
  dense_apply 2 3 V3 shift3 (woodbury_solve 2 3 b3 V3 (woodbury_factor 2 3 V3 shift3) shift3)
    1%nat 0%nat = b3 1%nat 0%nat.
Proof.
  split; [exact shift3_pos|].
  exact (woodbury_solve_positive_shift 2 3 V3 shift3 b3 shift3_pos 1%nat 0%nat ltac:(lia)).
Defined.

Lemma woodbury_solve_rank_zero_witness :
  (forall j, (j < 3)%nat -> shift3 j <> 0) /\
  woodbury_solve 0 3 b3 V3 V3 shift3 0%nat 0%nat = b3 0%nat 0%nat / shift3 0%nat.
Proof.
  split; [exact shift3_nonzero|].
  exact (woodbury_solve_rank_zero 3 b3 V3 V3 shift3 0%nat 0%nat shift3_nonzero ltac:(lia)).
Defined.

Lemma woodbury_solve_linear_witness :
  (forall j, (j < 3)%nat -> shift3 j <> 0) /\
  woodbury_solve 2 3 (fun j p => 2 * b3 j p + 3 * b3 j p) V3 V3 shift3 0%nat 0%nat
  = 2 * woodbury_solve 2 3 b3 V3 V3 shift3 0%nat 0%nat + 3 * woodbury_solve 2 3 b3 V3 V3 shift3 0%nat 0%nat.
Proof.
  split; [exact shift3_nonzero|].
  exact (woodbury_solve_linear 2 3 V3 V3 shift3 b3 b3 2 3 0%nat 0%nat shift3_nonzero).
Defined.
